(** * Terraform variable drift checker: a shallow embedding and its properties

    The development follows [src/terraform_variable_drift/__main__.py].
    Python [str] values are sequences of Unicode code points, sets of
    names are finite sets, and every function that prints or may raise
    lives in a small writer/exception monad. The regular expressions of
    the source are kept as data and run by a backtracking matcher. *)

From Stdlib Require Import ZArith NArith List String Ascii Bool Lia.
From stdpp Require Import base decidable option list gmap sets sorting.

Local Open Scope N_scope.

(** ** Python strings *)

Module PyStr.

(** A character is a code point; a [str] is a sequence of them. *)
Abbreviation char := N (only parsing).
Abbreviation str := (list N) (only parsing).

Definition chr (a : ascii) : char := N_of_ascii a.

(** [u "abc"] is the Python literal ["abc"] (ASCII literals only). *)
Definition u (s : string) : str := map chr (list_ascii_of_string s).

(** [s.replace(old, new)] for one-character [old] and [new]. *)
Definition replace1 (old new : char) (s : str) : str :=
  map (fun c => if N.eqb c old then new else c) s.

(** [p.startswith(s)] *)
Fixpoint startswith (p s : str) {struct s} : bool :=
  match s, p with
  | [], _ => true
  | a :: s', b :: p' => N.eqb a b && startswith p' s'
  | _ :: _, [] => false
  end.

(** [p.endswith(s)] *)
Definition endswith (p s : str) : bool := startswith (reverse p) (reverse s).

(** [p.endswith(tuple)] *)
Definition endswith_any (p : str) (exts : list str) : bool :=
  existsb (endswith p) exts.

(** [s in p] on strings: substring test. *)
Fixpoint contains (p s : str) : bool :=
  startswith p s ||
  match p with
  | [] => false
  | _ :: p' => contains p' s
  end.

(** Order of [str] values: lexicographic on code points. *)
Fixpoint str_leb (a b : str) : bool :=
  match a, b with
  | [], _ => true
  | _ :: _, [] => false
  | x :: a', y :: b' =>
      if N.ltb x y then true
      else if N.eqb x y then str_leb a' b' else false
  end.

Definition str_le (a b : str) : Prop := str_leb a b = true.

#[export] Instance str_le_dec : RelDecision str_le.
Proof. intros a b. unfold str_le. apply _. Defined.

(** [str.isspace] on one code point, the class written [\s] in a [str]
    pattern. *)
Definition isspace (c : char) : bool :=
  ((9 <=? c) && (c <=? 13)) || ((28 <=? c) && (c <=? 32)) ||
  (c =? 133) || (c =? 160) || (c =? 5760) ||
  ((8192 <=? c) && (c <=? 8202)) || (c =? 8232) || (c =? 8233) ||
  (c =? 8239) || (c =? 8287) || (c =? 12288).

(** The class [[A-Za-z0-9_]]. *)
Definition is_ident (c : char) : bool :=
  ((65 <=? c) && (c <=? 90)) || ((97 <=? c) && (c <=? 122)) ||
  ((48 <=? c) && (c <=? 57)) || (c =? 95).

(** Line boundaries of [str.splitlines]. *)
Definition is_linebreak (c : char) : bool :=
  ((10 <=? c) && (c <=? 13)) || ((28 <=? c) && (c <=? 30)) ||
  (c =? 133) || (c =? 8232) || (c =? 8233).

(** [s.splitlines()]: a carriage return followed by a line feed is one
    boundary, and a final boundary opens no further line. *)
Fixpoint splitlines_aux (cur : str) (s : str) : list str :=
  match s with
  | [] => match cur with [] => [] | _ => [reverse cur] end
  | c :: t =>
      if is_linebreak c then
        match t with
        | d :: t' =>
            if (c =? 13) && (d =? 10)
            then reverse cur :: splitlines_aux [] t'
            else reverse cur :: splitlines_aux [] t
        | [] => [reverse cur]
        end
      else splitlines_aux (c :: cur) t
  end.

Definition splitlines (s : str) : list str := splitlines_aux [] s.

Fixpoint lstrip (s : str) : str :=
  match s with
  | c :: t => if isspace c then lstrip t else s
  | [] => []
  end.

(** [s.strip()] *)
Definition strip (s : str) : str := reverse (lstrip (reverse (lstrip s))).

End PyStr.
Export PyStr.

(** ** Regular expressions, as the [re] module runs them *)

Module Re.

(** The fragment of pattern syntax the program uses. *)
Inductive regex : Type :=
| Eps                            (* the empty pattern *)
| Chr (c : char)                 (* a literal character *)
| Cls (p : char -> bool)         (* a character class *)
| Cat (r1 r2 : regex)            (* concatenation *)
| Star (r : regex)               (* greedy [r*] *)
| Group (r : regex)              (* the capturing group [(r)] *)
| NotAfter (p : char -> bool).   (* the lookbehind [(?<![...])] *)

(** Greedy [r+]. *)
Definition Plus (r : regex) : regex := Cat r (Star r).

(** A sequence of patterns. *)
Fixpoint Seq (l : list regex) : regex :=
  match l with
  | [] => Eps
  | [r] => r
  | r :: t => Cat r (Seq t)
  end.

(** A literal word. *)
Fixpoint Word (s : str) : regex :=
  match s with
  | [] => Eps
  | [c] => Chr c
  | c :: t => Cat (Chr c) (Word t)
  end.

(** Matcher state: the character just before the current position (none
    at the start of the text), the text still to read, and the contents
    of group 1 once it has closed. *)
Record mstate : Type := MState {
  prev : option char;
  rest : str;
  grp : option str
}.

Definition eat (st : mstate) (c : char) (t : str) : mstate :=
  {| prev := Some c; rest := t; grp := grp st |}.

Definition close_group (st0 st : mstate) : mstate :=
  {| prev := prev st; rest := rest st;
     grp := Some (take (length (rest st0) - length (rest st)) (rest st0)) |}.

(** The loop of a greedy star: one more iteration of [step] if it reads
    something and the rest then matches, otherwise the continuation. The
    count bounds the iterations by the length of the text left, which is
    enough as each iteration reads at least one character. *)
Definition star_loop {A : Type}
    (step : mstate -> (mstate -> option A) -> option A)
    (k : mstate -> option A) : nat -> mstate -> option A :=
  fix loop (n : nat) (st : mstate) {struct n} : option A :=
    match n with
    | O => k st
    | S n' =>
        match step st (fun st' =>
                if (length (rest st') <? length (rest st))%nat
                then loop n' st' else None) with
        | Some res => Some res
        | None => k st
        end
    end.

(** Backtracking matcher in continuation-passing style: [k] is tried on
    every way [r] can match at [st], longest iteration first, and the
    first success is returned. An iteration of a star that reads nothing
    is cut off. *)
Fixpoint rmatch {A : Type} (r : regex) (st : mstate)
    (k : mstate -> option A) : option A :=
  match r with
  | Eps => k st
  | Chr c =>
      match rest st with
      | x :: t => if N.eqb x c then k (eat st x t) else None
      | [] => None
      end
  | Cls p =>
      match rest st with
      | x :: t => if p x then k (eat st x t) else None
      | [] => None
      end
  | Cat r1 r2 => rmatch r1 st (fun st' => rmatch r2 st' k)
  | Star r1 => star_loop (rmatch r1) k (length (rest st)) st
  | Group r1 => rmatch r1 st (fun st' => k (close_group st st'))
  | NotAfter p =>
      match prev st with
      | Some c => if p c then None else k st
      | None => k st
      end
  end.

(** One match attempt at a position: what [findall] records for a
    pattern with one group (the group's text, or the empty string when
    the group took no part), and how many characters the match spans. *)
Definition match_here (r : regex) (pv : option char) (s : str)
    : option (str * nat) :=
  rmatch r {| prev := pv; rest := s; grp := None |}
    (fun st => Some (default [] (grp st), (length s - length (rest st))%nat)).

(** Leftmost, non-overlapping scan with a per-position matcher [m]:
    [skip] counts the characters still covered by the last match. After
    an empty match the scan moves on by one character. *)
Fixpoint scan (m : option char -> str -> option (str * nat))
    (pv : option char) (skip : nat) (s : str) : list str :=
  match skip with
  | S k =>
      match s with
      | [] => []
      | c :: t => scan m (Some c) k t
      end
  | O =>
      match m pv s with
      | Some (w, n) =>
          w :: match s with
               | [] => []
               | c :: t => scan m (Some c) (Nat.pred n) t
               end
      | None =>
          match s with
          | [] => []
          | c :: t => scan m (Some c) O t
          end
      end
  end.

(** [re.findall(r, s)] *)
Definition findall (r : regex) (s : str) : list str :=
  scan (match_here r) None O s.

End Re.
Export Re.

(** ** Python values, exceptions and output *)

Module Py.

#[local] Set Warnings "-register-all".

(** Values a document parser can hand back. Mapping keys are strings, as
    in every document [json] or [hcl2] builds. *)
Inductive pyval : Type :=
| PNone
| PBool (b : bool)
| PInt (z : Z)
| PFloat (repr : str)
| PStr (s : str)
| PList (l : list pyval)
| PDict (kvs : list (str * pyval)).

(** Exceptions the program can meet; all derive from [Exception]. *)
Inductive exn : Type :=
| OSError
| UnicodeDecodeError
| ParseError
| KeyError
| TypeError.

Inductive result (A : Type) : Type :=
| Ok (a : A)
| Raise (e : exn).
Arguments Ok {A} a.
Arguments Raise {A} e.

(** Lines the program writes, by the statement that writes them. *)
Inductive event : Type :=
| ErrHcl2Missing
| LogSkipNonTerraform (path : str)
| LogSkipIgnoredDir (path : str)
| LogRegexFallback (path : str) (e : exn)
| LogCouldNotParse (path : str) (e : exn)
| LogLoadingIgnore
| LogIgnoredVars (names : list str)
| LogNoIgnoreFile
| LogStart (root : str)
| LogComparing
| LogDeclared (n : nat)
| LogUsed (n : nat)
| LogTfvars (n : nat)
| LogIgnored (n : nat)
| LogNoDrift
| PrintUnused (names : list str)
| PrintMissing (names : list str)
| PrintTfvarsExtra (names : list str)
| PrintTip
| Traceback (e : exn).

(** A computation returns a value or raises, and leaves its output. *)
Definition M (A : Type) : Type := result A * list event.

Definition ret {A} (a : A) : M A := (Ok a, []).
Definition raise {A} (e : exn) : M A := (Raise e, []).
Definition log (ev : event) : M unit := (Ok tt, [ev]).

Definition bind {A B} (m : M A) (f : A -> M B) : M B :=
  match m with
  | (Ok a, out) => let '(r, out') := f a in (r, out ++ out')
  | (Raise e, out) => (Raise e, out)
  end.

(** [try: m  except Exception as e: h e] *)
Definition try_except {A} (m : M A) (h : exn -> M A) : M A :=
  match m with
  | (Ok a, out) => (Ok a, out)
  | (Raise e, out) => let '(r, out') := h e in (r, out ++ out')
  end.

Definition lift {A} (r : result A) : M A := (r, []).

(** [for x in l: s = body s x] *)
Fixpoint for_each {S A} (body : S -> A -> M S) (s : S) (l : list A) : M S :=
  match l with
  | [] => ret s
  | x :: l' => bind (body s x) (fun s' => for_each body s' l')
  end.

(** [isinstance(v, dict)] and [isinstance(v, list)] *)
Definition is_dict (v : pyval) : bool :=
  match v with PDict _ => true | _ => false end.
Definition is_list (v : pyval) : bool :=
  match v with PList _ => true | _ => false end.

(** [d.keys()] of a mapping *)
Definition keys (kvs : list (str * pyval)) : list str := map fst kvs.

(** [d[key]] on a mapping whose keys are distinct *)
Fixpoint lookup_key (key : str) (kvs : list (str * pyval)) : option pyval :=
  match kvs with
  | [] => None
  | (k, v) :: t => if bool_decide (k = key) then Some v else lookup_key key t
  end.

(** [key in v] for a string [key]: key membership on a mapping, element
    membership on a sequence, substring test on a string; any other
    operand is not a container. *)
Definition py_in (key : str) (v : pyval) : result bool :=
  match v with
  | PDict kvs => Ok (bool_decide (key ∈ keys kvs))
  | PList l =>
      Ok (existsb (fun x => match x with
                            | PStr s => bool_decide (s = key)
                            | _ => false
                            end) l)
  | PStr s => Ok (contains s key)
  | _ => Raise TypeError
  end.

(** [v[key]] for a string [key]: only a mapping takes a string
    subscript; a missing key raises too, but the program asks first. *)
Definition py_getitem (v : pyval) (key : str) : result pyval :=
  match v with
  | PDict kvs =>
      match lookup_key key kvs with
      | Some x => Ok x
      | None => Raise KeyError
      end
  | _ => Raise TypeError
  end.

(** [for entry in v]: the values iteration yields. A sequence yields its
    elements, a mapping its keys, a string its characters. *)
Definition py_iter (v : pyval) : result (list pyval) :=
  match v with
  | PList l => Ok l
  | PDict kvs => Ok (map PStr (keys kvs))
  | PStr s => Ok (map (fun c => PStr [c]) s)
  | _ => Raise TypeError
  end.

End Py.
Export Py.

Notation "x <- m ;; k" := (bind m (fun x => k))
  (at level 100, m at next level, right associativity).
Notation "m ;;; k" := (bind m (fun _ => k))
  (at level 100, right associativity).

(** ** The program *)

Module Drift.

(** What a run finds around it: whether [import hcl2] succeeds, what
    reading a path as UTF-8 text gives, what the two document parsers
    make of a text, what the three [glob.glob] calls list, the working
    directory, and the ignore file (absent, or the outcome of reading
    it). The tree is not touched while the run lasts, so reading a path
    twice gives the same outcome. *)
Record world : Type := World {
  hcl2_installed : bool;
  read_text : str -> result str;
  hcl2_loads : str -> result pyval;
  json_loads : str -> result pyval;
  glob_tf : list str;
  glob_tfvars : list str;
  glob_tfvars_json : list str;
  cwd : str;
  ignorelist_file : option (result str)
}.

Definition IGNORE_DIR_PATTERNS : list str :=
  [u "/.terraform/"; u "/.git/"; u "/vendor/"; u "/third_party/"].
Definition IGNORE_FILE_PATTERNS : list str := [u ".terraform"].
Definition IGNORE_FILE_EXTS : list str := [u ".tf"; u ".tfvars"; u ".json"].
Definition IGNORELIST_FILE : str := u ".tfdriftignore".

(** [(?<![A-Za-z0-9_])var\.([A-Za-z0-9_]+)] *)
Definition VAR_REF_RE : regex :=
  Seq [NotAfter is_ident; Word (u "var."); Group (Plus (Cls is_ident))].

(** [variable\s+"([A-Za-z0-9_]+)"\s*{], the pattern of the fallback. *)
Definition VARIABLE_HEADER_RE : regex :=
  Seq [Word (u "variable"); Plus (Cls isspace); Chr 34;
       Group (Plus (Cls is_ident)); Chr 34; Star (Cls isspace); Chr 123].

(** [sorted(X)] of a set of names: its elements in ascending order. *)
Definition sorted (X : gset str) : list str := merge_sort str_le (elements X).

Definition should_skip (path : str) : M bool :=
  let p := replace1 92 47 path in
  if negb (endswith_any p IGNORE_FILE_EXTS) then
    log (LogSkipNonTerraform path) ;;; ret true
  else if existsb (contains p) IGNORE_DIR_PATTERNS then
    log (LogSkipIgnoredDir path) ;;; ret true
  else ret false.

Definition hcl_load (w : world) (path : str) : M pyval :=
  txt <- lift (read_text w path) ;;
  lift (hcl2_loads w txt).

(** The body of [for blk in blocks]. *)
Definition declared_in_block (declared : gset str) (blk : pyval)
    : M (gset str) :=
  has <- lift (py_in (u "variable") blk) ;;
  if has : bool then
    v <- lift (py_getitem blk (u "variable")) ;;
    entries <- lift (py_iter v) ;;
    for_each (fun declared entry =>
                match entry with
                | PDict kvs =>
                    for_each (fun declared name => ret (declared ∪ {[name]}))
                             declared (keys kvs)
                | _ => ret declared
                end) declared entries
  else ret declared.

(** The statements after the [try] of [parse_declared_vars_from_tf]. *)
Definition declared_in_document (declared : gset str) (data : pyval)
    : M (gset str) :=
  let blocks :=
    match data with
    | PDict _ => [data]
    | PList l => l
    | _ => []
    end in
  for_each declared_in_block declared blocks.

Definition parse_declared_vars_from_tf (w : world) (path : str)
    : M (gset str) :=
  let declared : gset str := ∅ in
  r <- try_except
         (data <- hcl_load w path ;; ret (inl data))
         (fun e =>
            log (LogRegexFallback path e) ;;;
            txt <- lift (read_text w path) ;;
            ret (inr (declared ∪ list_to_set (findall VARIABLE_HEADER_RE txt)))) ;;
  match r with
  | inr declared => ret declared
  | inl data => declared_in_document declared data
  end.

Definition parse_used_vars_from_tf (w : world) (path : str) : M (gset str) :=
  txt <- lift (read_text w path) ;;
  ret (list_to_set (findall VAR_REF_RE txt)).

(** [None] stands for leaving the [try] statement without a [return]. *)
Definition parse_tfvars (w : world) (path : str) : M (gset str) :=
  r <- (if endswith path (u ".json") then
          try_except
            (txt <- lift (read_text w path) ;;
             obj <- lift (json_loads w txt) ;;
             match obj with
             | PDict kvs => ret (Some (list_to_set (keys kvs)))
             | _ => ret None
             end)
            (fun e => log (LogCouldNotParse path e) ;;; ret (Some ∅))
        else
          try_except
            (data <- hcl_load w path ;;
             match data with
             | PDict kvs => ret (Some (list_to_set (keys kvs)))
             | _ => ret None
             end)
            (fun e => log (LogCouldNotParse path e) ;;; ret (Some ∅))) ;;
  match r with
  | Some ks => ret ks
  | None => ret ∅
  end.

Definition load_ignorelist (w : world) : M (gset str) :=
  match ignorelist_file w with
  | Some content =>
      log LogLoadingIgnore ;;;
      txt <- lift content ;;
      names <- for_each (fun (names : gset str) line =>
                 let line := strip line in
                 if bool_decide (line = []) || startswith line (u "#")
                 then ret names
                 else ret (names ∪ {[line]})) ∅ (splitlines txt) ;;
      log (LogIgnoredVars (sorted names)) ;;;
      ret names
  | None => log LogNoIgnoreFile ;;; ret ∅
  end.

(** The three accumulators of [main]. *)
Record sets : Type := Sets {
  declared : gset str;
  used : gset str;
  tfvars_keys : gset str
}.

(** The body of the loop over [**/*.tf]. *)
Definition tf_body (w : world) (a : sets) (path : str) : M sets :=
  skip <- should_skip path ;;
  if skip : bool then ret a else
  d <- parse_declared_vars_from_tf w path ;;
  let a := Sets (declared a ∪ d) (used a) (tfvars_keys a) in
  us <- parse_used_vars_from_tf w path ;;
  ret (Sets (declared a) (used a ∪ us) (tfvars_keys a)).

(** The body of the two loops over override files. *)
Definition tfvars_body (w : world) (a : sets) (path : str) : M sets :=
  skip <- should_skip path ;;
  if skip : bool then ret a else
  ks <- parse_tfvars w path ;;
  ret (Sets (declared a) (used a) (tfvars_keys a ∪ ks)).

(** The three loops of [main], from empty accumulators. *)
Definition collect (w : world) : M sets :=
  a <- for_each (tf_body w) (Sets ∅ ∅ ∅) (glob_tf w) ;;
  a <- for_each (tfvars_body w) a (glob_tfvars w) ;;
  for_each (tfvars_body w) a (glob_tfvars_json w).

(** The three sorted differences of [main]. *)
Record drift : Type := Drift {
  unused : list str;
  missing : list str;
  tfvars_extra : list str
}.

Definition compare (a : sets) (ignore : gset str) : drift :=
  {| unused := sorted ((declared a ∖ used a) ∖ ignore);
     missing := sorted ((used a ∖ declared a) ∖ ignore);
     tfvars_extra := sorted ((tfvars_keys a ∖ declared a) ∖ ignore) |}.

(** [if names: print(...)] *)
Definition print_if (names : list str) (ev : event) : M unit :=
  match names with
  | [] => ret tt
  | _ :: _ => log ev
  end.

(** The end of [main]: the report and the returned status. *)
Definition report (d : drift) : M Z :=
  match unused d, missing d, tfvars_extra d with
  | [], [], [] => log LogNoDrift ;;; ret 0%Z
  | _, _, _ =>
      print_if (unused d) (PrintUnused (unused d)) ;;;
      print_if (missing d) (PrintMissing (missing d)) ;;;
      print_if (tfvars_extra d) (PrintTfvarsExtra (tfvars_extra d)) ;;;
      log PrintTip ;;;
      ret 1%Z
  end.

(** [main] up to the comparison: the sets and what is reported. *)
Definition analyse (w : world) : M (sets * gset str * drift) :=
  log (LogStart (cwd w)) ;;;
  a <- collect w ;;
  ignore <- load_ignorelist w ;;
  log LogComparing ;;;
  ret (a, ignore, compare a ignore).

Definition main (w : world) : M Z :=
  r <- analyse w ;;
  let '(a, ignore, d) := r in
  log (LogDeclared (size (declared a))) ;;;
  log (LogUsed (size (used a))) ;;;
  log (LogTfvars (size (tfvars_keys a))) ;;;
  log (LogIgnored (size ignore)) ;;;
  report d.

(** The script: the import guard, then [sys.exit(main())]. An exception
    that leaves [main] ends the process with status 1. *)
Definition script (w : world) : Z * list event :=
  if hcl2_installed w then
    match main w with
    | (Ok code, out) => (code, out)
    | (Raise e, out) => (1%Z, out ++ [Traceback e])
    end
  else (2%Z, [ErrHcl2Missing]).

End Drift.
Export Drift.

(** ** Specifications *)

Module Spec.

(** The longest prefix of [s] made of characters of the class [p]. *)
Fixpoint run (p : char -> bool) (s : str) : str :=
  match s with
  | x :: t => if p x then x :: run p t else []
  | [] => []
  end.

(** The character before the position reached by reading [r] from a
    position that has [pv] before it. *)
Definition prev_after (pv : option char) (r : str) : option char :=
  match last r with
  | Some c => Some c
  | None => pv
  end.

(** The matcher state after reading the longest run of the class [p]. *)
Definition after_run (p : char -> bool) (pv : option char) (s : str)
    (g : option str) : mstate :=
  MState (prev_after pv (run p s)) (drop (length (run p s)) s) g.

(** The reference pattern tried at one position, read off its words:
    no identifier character before, the word [var.], then the longest
    run of identifier characters, which must not be empty. *)
Definition ref_at (pv : option char) (s : str) : option (str * nat) :=
  if match pv with Some c => is_ident c | None => false end then None
  else if startswith s (u "var.") then
    match run is_ident (drop 4 s) with
    | [] => None
    | w => Some (w, (4 + length w)%nat)
    end
  else None.

(** A name: one or more letters, digits or underscores. *)
Definition identifier (w : str) : Prop :=
  w ≠ [] ∧ Forall (fun c => is_ident c = true) w.

(** No character of the class [p] comes first in [t]. *)
Definition stops (p : char -> bool) (t : str) : Prop :=
  ∀ c t', t = c :: t' → p c = false.

(** A match of [var.<identifier>] on the text [s] that has [pv] just
    before it: no identifier character precedes, the word [var.] comes
    next, then the identifier [w], taken as far as it goes; the match
    spans [n] characters. *)
Definition ref_match (pv : option char) (s : str) (w : str) (n : nat)
    : Prop :=
  (∀ c, pv = Some c → is_ident c = false) ∧
  ∃ t, s = u "var." ++ w ++ t ∧ identifier w ∧ stops is_ident t ∧
       n = (4 + length w)%nat.



(** The matches of a pattern found from left to right without overlap:
    at each position either the pattern [P] does not match and the
    search moves one character on, or it matches, the capture is
    recorded, and the search resumes right after the match. *)
Inductive matches_from (P : option char -> str -> str -> nat -> Prop)
    : option char -> str -> list str -> Prop :=
| mf_end pv :
    (∀ w n, ¬ P pv [] w n) → matches_from P pv [] []
| mf_miss pv c t l :
    (∀ w n, ¬ P pv (c :: t) w n) →
    matches_from P (Some c) t l →
    matches_from P pv (c :: t) l
| mf_hit pv body t w l :
    body ≠ [] →
    P pv (body ++ t) w (length body) →
    matches_from P (last body) t l →
    matches_from P pv (body ++ t) (w :: l).

(** [l] lists the set [X] in ascending order, each name once. *)
Definition sorted_listing (l : list str) (X : gset str) : Prop :=
  StronglySorted str_le l ∧ NoDup l ∧ ∀ s, s ∈ l ↔ s ∈ X.

(** Every accumulator of [a] is included in the one of [b]. *)
Definition sets_le (a b : sets) : Prop :=
  declared a ⊆ declared b ∧ used a ⊆ used b ∧ tfvars_keys a ⊆ tfvars_keys b.


(** The names one entry of a [variable] block list declares: the keys of
    a mapping, nothing for any other value. *)
Definition declared_of_entry (entry : pyval) : gset str :=
  match entry with
  | PDict kvs => list_to_set (keys kvs)
  | _ => ∅
  end.

Definition declared_of_entries (entries : list pyval) : gset str :=
  ⋃ (map declared_of_entry entries).

End Spec.
Export Spec.

(** ** Further specifications *)

Module Laws.

(** The accumulators of [a] joined with those of [b]. *)
Definition sets_union (a b : sets) : sets :=
  Sets (declared a ∪ declared b) (used a ∪ used b)
       (tfvars_keys a ∪ tfvars_keys b).

(** The same surroundings with other results for the three [glob.glob]
    calls. *)
Definition with_listing (w : world) (tf tfvars tfvars_json : list str)
    : world :=
  {| hcl2_installed := hcl2_installed w;
     read_text := read_text w;
     hcl2_loads := hcl2_loads w;
     json_loads := json_loads w;
     glob_tf := tf;
     glob_tfvars := tfvars;
     glob_tfvars_json := tfvars_json;
     cwd := cwd w;
     ignorelist_file := ignorelist_file w |}.

(** A block as the structured parser builds it: a mapping whose
    [variable] entry, if any, is a list. *)
Definition block_shaped (blk : pyval) : Prop :=
  ∃ kvs, blk = PDict kvs ∧
         (lookup_key (u "variable") kvs = None ∨
          ∃ entries, lookup_key (u "variable") kvs = Some (PList entries)).

(** The names such a block declares. *)
Definition declared_of_block (blk : pyval) : gset str :=
  match blk with
  | PDict kvs =>
      match lookup_key (u "variable") kvs with
      | Some (PList entries) => declared_of_entries entries
      | _ => ∅
      end
  | _ => ∅
  end.

(** The blocks of a document: the document itself when it is a mapping,
    its elements when it is a list. *)
Definition blocks_of (data : pyval) : list pyval :=
  match data with
  | PDict _ => [data]
  | PList l => l
  | _ => []
  end.

(** A line of the ignore file counts when, stripped, it is neither
    empty nor a comment. *)
Definition ignore_entry (line x : str) : Prop :=
  x = strip line ∧ x ≠ [] ∧ startswith x (u "#") = false.

End Laws.
Export Laws.

(** ** Sample runs *)

Module Sample.

Definition quoted (s : str) : str := [34] ++ s ++ [34].

(** [open(path).read()] over a table of text files; a path outside the
    table cannot be read. *)
Fixpoint read_from (files : list (str * str)) (path : str) : result str :=
  match files with
  | [] => Raise OSError
  | (p, txt) :: t => if bool_decide (p = path) then Ok txt else read_from t path
  end.

(** A parser given by the documents it accepts. *)
Fixpoint parse_from (docs : list (str * pyval)) (txt : str) : result pyval :=
  match docs with
  | [] => Raise ParseError
  | (t, v) :: r => if bool_decide (t = txt) then Ok v else parse_from r txt
  end.

Definition variables_tf : str :=
  u "variable " ++ quoted (u "region") ++ u " {}" ++ [10] ++
  u "variable " ++ quoted (u "env") ++ u " {}" ++ [10] ++
  u "variable " ++ quoted (u "legacy") ++ u " {}" ++ [10].

Definition main_tf : str :=
  u "provider " ++ quoted (u "aws") ++ u " { region = var.region }" ++ [10] ++
  u "locals { p = var.project_id, q = myvar.x }" ++ [10].

Definition tfvars_json : str :=
  u "{" ++ quoted (u "extra_flag") ++ u ": true, " ++
  quoted (u "region") ++ u ": 1}".

Definition variables_doc : pyval :=
  PDict [(u "variable",
          PList [PDict [(u "region", PDict [])];
                 PDict [(u "env", PDict [])];
                 PDict [(u "legacy", PDict [])]])].

Definition main_doc : pyval :=
  PDict [(u "provider", PList [PDict [(u "aws", PDict [(u "region", PStr (u "${var.region}"))])]]);
         (u "locals", PList [PDict [(u "p", PStr (u "${var.project_id}"))]])].

Definition tfvars_doc : pyval :=
  PDict [(u "extra_flag", PBool true); (u "region", PInt 1)].

(** A tree with a declaration file, a configuration file, an override
    file in JSON and, skipped by the filter, a vendored module; the
    ignore file names [legacy]. *)
Definition w_drift : world :=
  {| hcl2_installed := true;
     read_text := read_from [(u "variables.tf", variables_tf);
                             (u "main.tf", main_tf);
                             (u "modules/vendor/x.tf", variables_tf);
                             (u "terraform.tfvars.json", tfvars_json)];
     hcl2_loads := parse_from [(variables_tf, variables_doc);
                               (main_tf, main_doc)];
     json_loads := parse_from [(tfvars_json, tfvars_doc)];
     glob_tf := [u "variables.tf"; u "main.tf"; u "modules/vendor/x.tf"];
     glob_tfvars := [u "terraform.tfvars.json"];
     glob_tfvars_json := [u "terraform.tfvars.json"];
     cwd := u "/repo";
     ignorelist_file := Some (Ok (u "# kept for the old module" ++ [10] ++
                                  u "  legacy " ++ [13; 10])) |}.

(** The same tree without the dependency installed. *)
Definition w_no_hcl2 : world :=
  {| hcl2_installed := false;
     read_text := read_text w_drift;
     hcl2_loads := hcl2_loads w_drift;
     json_loads := json_loads w_drift;
     glob_tf := glob_tf w_drift;
     glob_tfvars := glob_tfvars w_drift;
     glob_tfvars_json := glob_tfvars_json w_drift;
     cwd := cwd w_drift;
     ignorelist_file := ignorelist_file w_drift |}.

(** Declared and used names agree, overrides are declared, nothing is
    ignored. *)
Definition clean_tf : str :=
  u "variable " ++ quoted (u "a") ++ u " {}" ++ [10] ++
  u "variable " ++ quoted (u "b") ++ u " {}" ++ [10] ++
  u "x = [var.a, var.b]" ++ [10].

Definition w_clean : world :=
  {| hcl2_installed := true;
     read_text := read_from [(u "main.tf", clean_tf);
                             (u "prod.tfvars", u "a = 1")];
     hcl2_loads := parse_from
       [(clean_tf, PDict [(u "variable", PList [PDict [(u "a", PDict [])];
                                                PDict [(u "b", PDict [])]])]);
        (u "a = 1", PDict [(u "a", PInt 1)])];
     json_loads := parse_from [];
     glob_tf := [u "main.tf"];
     glob_tfvars := [u "prod.tfvars"];
     glob_tfvars_json := [];
     cwd := u "/repo";
     ignorelist_file := None |}.

(** A tree whose only configuration file cannot be decoded as UTF-8. *)
Definition w_unreadable : world :=
  {| hcl2_installed := true;
     read_text := fun _ => Raise UnicodeDecodeError;
     hcl2_loads := parse_from [];
     json_loads := parse_from [];
     glob_tf := [u "data.tf"];
     glob_tfvars := [];
     glob_tfvars_json := [];
     cwd := u "/repo";
     ignorelist_file := None |}.

(** A tree whose only configuration file holds the attribute
    [variable = 5], which parses to a mapping from [variable] to 5. *)
Definition w_attribute : world :=
  {| hcl2_installed := true;
     read_text := read_from [(u "bad.tf", u "variable = 5" ++ [10])];
     hcl2_loads := parse_from [(u "variable = 5" ++ [10],
                                PDict [(u "variable", PInt 5)])];
     json_loads := parse_from [];
     glob_tf := [u "bad.tf"];
     glob_tfvars := [];
     glob_tfvars_json := [];
     cwd := u "/repo";
     ignorelist_file := None |}.

(** A tree whose only configuration file does not parse: a header is
    left without its closing brace. *)
Definition broken_tf : str :=
  u "variable " ++ quoted (u "region") ++ u " {" ++ [10] ++
  u "variable" ++ [9] ++ quoted (u "env") ++ u "{ type = string" ++ [10] ++
  u "variable " ++ quoted (u "bad-name") ++ u " {}" ++ [10].

Definition w_broken : world :=
  {| hcl2_installed := true;
     read_text := read_from [(u "broken.tf", broken_tf)];
     hcl2_loads := parse_from [];
     json_loads := parse_from [];
     glob_tf := [u "broken.tf"];
     glob_tfvars := [];
     glob_tfvars_json := [];
     cwd := u "/repo";
     ignorelist_file := None |}.

End Sample.
(** ** More sample runs *)

Module Parts.

Definition head_tf : str := u "a = var.alpha" ++ [10] ++ u "b = myvar.x".
Definition tail_tf : str := u "c = [var.beta, var.alpha]".

(** A file and its two halves, cut at a line break. *)
Definition w_parts : world :=
  {| hcl2_installed := true;
     read_text := Sample.read_from
                    [(u "whole.tf", head_tf ++ [10] ++ tail_tf);
                     (u "head.tf", head_tf);
                     (u "tail.tf", tail_tf)];
     hcl2_loads := Sample.parse_from [];
     json_loads := Sample.parse_from [];
     glob_tf := [u "whole.tf"];
     glob_tfvars := [];
     glob_tfvars_json := [];
     cwd := u "/repo";
     ignorelist_file := None |}.

End Parts.

Module Vendored.

Definition leaked_tf : str :=
  u "variable " ++ Sample.quoted (u "leaked") ++ u " {}" ++ [10].

(** A tree whose only files sit in a [vendor] directory at its top, as
    [glob.glob] names them from the working directory, and in a
    [vendor] directory one level down. *)
Definition w_vendored : world :=
  {| hcl2_installed := true;
     read_text := Sample.read_from
                    [(u "vendor/main.tf", leaked_tf);
                     (u "modules/vendor/main.tf", leaked_tf);
                     (u "vendor/prod.tfvars", u "extra = 1")];
     hcl2_loads := Sample.parse_from
       [(leaked_tf,
         PDict [(u "variable", PList [PDict [(u "leaked", PDict [])]])]);
        (u "extra = 1", PDict [(u "extra", PInt 1)])];
     json_loads := Sample.parse_from [];
     glob_tf := [u "vendor/main.tf"; u "modules/vendor/main.tf"];
     glob_tfvars := [u "vendor/prod.tfvars"];
     glob_tfvars_json := [];
     cwd := u "/repo";
     ignorelist_file := None |}.

End Vendored.

(** ** Facts about strings *)

Section StrFacts.

Lemma startswith_spec (p s : str) : startswith p s = true ↔ s `prefix_of` p.
Proof.
revert p. induction s as [|a s IH]; intros p; simpl.
- split; [intros _; apply prefix_nil | done].
- destruct p as [|b p].
  + split; [done | intros [k Hk]; discriminate].
  + rewrite andb_true_iff, N.eqb_eq, IH. split.
    * intros [-> Hp]. by apply prefix_cons.
    * intros Hp. split; [by apply prefix_cons_inv_1 in Hp | by apply prefix_cons_inv_2 in Hp].
Qed.

Lemma endswith_spec (p s : str) : endswith p s = true ↔ s `suffix_of` p.
Proof.
unfold endswith. rewrite startswith_spec. symmetry. apply suffix_prefix_reverse.
Qed.

Lemma endswith_any_spec (p : str) (exts : list str) :
endswith_any p exts = true ↔ ∃ e, e ∈ exts ∧ e `suffix_of` p.
Proof.
unfold endswith_any. rewrite existsb_exists. split.
- intros (e & He & Hs). exists e. split; [by apply list_elem_of_In|].
  by apply endswith_spec.
- intros (e & He & Hs). exists e. split; [by apply list_elem_of_In|].
  by apply endswith_spec.
Qed.

Lemma contains_spec (p s : str) :
contains p s = true ↔ ∃ a b, p = a ++ s ++ b.
Proof.
induction p as [|c p IH]; simpl.
- rewrite orb_false_r, startswith_spec. split.
  + intros [k Hk]. exists [], k. done.
  + intros (a & b & H). symmetry in H.
    apply app_eq_nil in H as [-> H]. apply app_eq_nil in H as [-> ->].
    done.
- rewrite orb_true_iff, startswith_spec, IH. split.
  + intros [[k Hk] | (a & b & ->)].
    * exists [], k. done.
    * exists (c :: a), b. done.
  + intros (a & b & H). destruct a as [|c' a]; simpl in H.
    * left. by exists b.
    * right. simplify_eq. by exists a, b.
Qed.

End StrFacts.

(** ** The monad *)

Section MonadFacts.
Context {A B : Type}.

Lemma bind_ok (a : A) (out : list event) (f : A -> M B) :
  bind (Ok a, out) f = (fst (f a), out ++ snd (f a)).
Proof. unfold bind. by destruct (f a). Qed.

Lemma bind_ret_l (a : A) (f : A -> M B) : bind (ret a) f = f a.
Proof. unfold ret. rewrite bind_ok. by destruct (f a). Qed.

Lemma bind_raise (e : exn) (out : list event) (f : A -> M B) :
  bind (Raise e, out) f = (Raise e, out).
Proof. done. Qed.

Lemma bind_ok_inv (m : M A) (f : A -> M B) (b : B) (out : list event) :
  bind m f = (Ok b, out) →
  ∃ a o1 o2, m = (Ok a, o1) ∧ f a = (Ok b, o2) ∧ out = o1 ++ o2.
Proof.
  destruct m as [[a|e] o1]; [|done].
  rewrite bind_ok. destruct (f a) as [r o2] eqn:E; simpl.
  intros [= -> <-]. exists a, o1, o2. by rewrite E.
Qed.
End MonadFacts.

Lemma for_each_app {S A} (body : S -> A -> M S) (s : S) (l1 l2 : list A) :
  for_each body s (l1 ++ l2) =
  bind (for_each body s l1) (fun s' => for_each body s' l2).
Proof.
  revert s. induction l1 as [|x l1 IH]; intros s; cbn [for_each app].
  - by rewrite bind_ret_l.
  - destruct (body s x) as [[s1|e] o1]; [|done].
    rewrite !bind_ok, IH.
    destruct (for_each body s1 l1) as [[s2|e] o2]; cbn [fst snd].
    + rewrite !bind_ok. cbn [fst snd]. by rewrite app_assoc.
    + done.
Qed.

Lemma for_each_pure {S A} (f : S -> A -> S) (s : S) (l : list A) :
  for_each (fun s x => ret (f s x)) s l = ret (foldl f s l).
Proof.
  revert s. induction l as [|x l IH]; intros s; cbn [for_each foldl]; [done|].
  by rewrite bind_ret_l.
Qed.

(** Running a computation step by step. *)
Ltac msimpl :=
  unfold ret, log, lift, raise;
  repeat (first [rewrite bind_ok | rewrite bind_raise]; cbn [fst snd]);
  cbn [fst snd app]; rewrite ?app_nil_r.

Ltac mrun := repeat (progress (msimpl; cbn [try_except])).

(** ** The path filter *)

Lemma should_skip_cases (path : str) :
  should_skip path =
    if negb (endswith_any (replace1 92 47 path) IGNORE_FILE_EXTS)
    then (Ok true, [LogSkipNonTerraform path])
    else if existsb (contains (replace1 92 47 path)) IGNORE_DIR_PATTERNS
         then (Ok true, [LogSkipIgnoredDir path])
         else (Ok false, []).
Proof.
  unfold should_skip.
  destruct (negb _); [done|]. by destruct (existsb _ _).
Qed.

Lemma skipped_tf_body (w : world) (a : sets) (path : str) (out : list event) :
  should_skip path = (Ok true, out) → tf_body w a path = (Ok a, out).
Proof.
  intros H. unfold tf_body. rewrite H, bind_ok. simpl. by rewrite app_nil_r.
Qed.

Lemma skipped_tfvars_body (w : world) (a : sets) (path : str)
    (out : list event) :
  should_skip path = (Ok true, out) → tfvars_body w a path = (Ok a, out).
Proof.
  intros H. unfold tfvars_body. rewrite H, bind_ok. simpl.
  by rewrite app_nil_r.
Qed.

(** A path whose normalised form contains one of the configured
    patterns, with the slash on either side of the directory name, is
    skipped, and the loop bodies of [main] leave all three accumulators
    as they were, whatever the extension. *)
Theorem denylisted_path_skipped (path seg : str) :
  seg ∈ IGNORE_DIR_PATTERNS →
  (∃ a b, replace1 92 47 path = a ++ seg ++ b) →
  ∃ out, should_skip path = (Ok true, out) ∧
         ∀ w acc, tf_body w acc path = (Ok acc, out) ∧
                  tfvars_body w acc path = (Ok acc, out).
Proof.
  intros Hseg Hsub.
  assert (Hex : existsb (contains (replace1 92 47 path)) IGNORE_DIR_PATTERNS
                = true).
  { apply existsb_exists. exists seg. split.
    - by apply list_elem_of_In.
    - by apply contains_spec. }
  assert (Hs : ∃ out, should_skip path = (Ok true, out)).
  { rewrite should_skip_cases, Hex. destruct (negb _); eauto. }
  destruct Hs as [out Hs]. exists out. split; [done|].
  intros w acc. split.
  - by apply skipped_tf_body.
  - by apply skipped_tfvars_body.
Qed.

Lemma denylisted_path_skipped_witness :
  ∃ out, should_skip (u "modules\vendor\main.tf") = (Ok true, out) ∧
         ∀ w acc, tf_body w acc (u "modules\vendor\main.tf") = (Ok acc, out) ∧
                  tfvars_body w acc (u "modules\vendor\main.tf") = (Ok acc, out).
Proof.
  apply (denylisted_path_skipped (u "modules\vendor\main.tf") (u "/vendor/")).
  - vm_compute. do 2 right. left.
  - exists (u "modules"), (u "main.tf"). reflexivity.
Defined.

(** The patterns carry their slashes: a directory at the top of a
    relative path is not covered by them. *)
Example top_level_vendor_not_skipped :
  should_skip (u "vendor/main.tf") = (Ok false, []).
Proof. reflexivity. Qed.

(** C1. Every configured pattern begins with a slash, and the paths
    [glob.glob] yields are relative to the working directory: a file
    under a [vendor] or [third_party] directory at the top of the tree
    has no slash before the directory name, is not skipped, and what it
    declares and supplies reaches the sets and the report; the same file
    one directory down is skipped. *)
Theorem top_level_denylisted_directory_is_scanned :
  should_skip (u "vendor/main.tf") = (Ok false, []) ∧
  should_skip (u "third_party/lib/x.tf") = (Ok false, []) ∧
  should_skip (u "modules/vendor/main.tf")
    = (Ok true, [LogSkipIgnoredDir (u "modules/vendor/main.tf")]) ∧
  tf_body Vendored.w_vendored (Sets ∅ ∅ ∅) (u "vendor/main.tf")
    = (Ok (Sets {[u "leaked"]} ∅ ∅), []) ∧
  collect Vendored.w_vendored
    = (Ok (Sets {[u "leaked"]} ∅ {[u "extra"]}),
       [LogSkipIgnoredDir (u "modules/vendor/main.tf")]) ∧
  script Vendored.w_vendored
    = (1%Z, [LogStart (u "/repo");
             LogSkipIgnoredDir (u "modules/vendor/main.tf");
             LogNoIgnoreFile; LogComparing;
             LogDeclared 1; LogUsed 0; LogTfvars 1; LogIgnored 0;
             PrintUnused [u "leaked"]; PrintTfvarsExtra [u "extra"];
             PrintTip]).
Proof. repeat split; vm_compute; reflexivity. Qed.



(** ** The matcher on the program's patterns *)

Section Runs.
Context (p : char -> bool).

Lemma run_app (s : str) : run p s ++ drop (length (run p s)) s = s.
Proof.
  induction s as [|x t IH]; cbn [run]; [done|].
  destruct (p x); [|done]. cbn [length drop app]. by rewrite IH.
Qed.

Lemma run_length (s : str) : (length (run p s) ≤ length s)%nat.
Proof.
  induction s as [|x t IH]; cbn [run]; [done|].
  destruct (p x); cbn [length]; lia.
Qed.

Lemma run_take (s : str) : take (length (run p s)) s = run p s.
Proof.
  induction s as [|x t IH]; cbn [run]; [done|].
  destruct (p x); [|done]. cbn [length take]. by rewrite IH.
Qed.

Lemma run_all (s : str) : Forall (fun c => p c = true) (run p s).
Proof.
  induction s as [|x t IH]; cbn [run]; [done|].
  destruct (p x) eqn:E; [|done]. by constructor.
Qed.

Lemma run_stops (s : str) : stops p (drop (length (run p s)) s).
Proof.
  induction s as [|x t IH]; cbn [run]; [done|].
  destruct (p x) eqn:E; [done|].
  intros c t' [= -> _]. done.
Qed.

Lemma run_unique (w t : str) :
  Forall (fun c => p c = true) w → stops p t → run p (w ++ t) = w.
Proof.
  intros Hw Ht. induction Hw as [|x w Hx Hw IH]; cbn [app run].
  - destruct t as [|c t']; [done|]. cbn [run]. by rewrite (Ht c t').
  - by rewrite Hx, IH.
Qed.

Lemma prev_after_cons (pv : option char) (x : char) (r : str) :
  prev_after (Some x) r = prev_after pv (x :: r).
Proof.
  unfold prev_after. rewrite last_cons. by destruct (last r).
Qed.

Lemma after_run_cons (pv : option char) (x : char) (t : str)
    (g : option str) :
  p x = true → after_run p (Some x) t g = after_run p pv (x :: t) g.
Proof.
  intros Hx. unfold after_run. cbn [run]. rewrite Hx.
  cbn [length drop]. by rewrite (prev_after_cons pv).
Qed.

Lemma after_run_stop (pv : option char) (s : str) (g : option str) :
  run p s = [] → after_run p pv s g = MState pv s g.
Proof. unfold after_run. by intros ->. Qed.
End Runs.

Lemma star_loop_S {A : Type}
    (step : mstate -> (mstate -> option A) -> option A)
    (k : mstate -> option A) (n : nat) (st : mstate) :
  star_loop step k (S n) st =
    match step st (fun st' =>
            if (length (rest st') <? length (rest st))%nat
            then star_loop step k n st' else None) with
    | Some res => Some res
    | None => k st
    end.
Proof. done. Qed.

Lemma star_loop_O {A : Type}
    (step : mstate -> (mstate -> option A) -> option A)
    (k : mstate -> option A) (st : mstate) :
  star_loop step k O st = k st.
Proof. done. Qed.

Lemma rmatch_cls_cons {A : Type} (p : char -> bool) (k : mstate -> option A)
    (pv : option char) (x : char) (t : str) (g : option str) :
  rmatch (Cls p) (MState pv (x :: t) g) k =
    if p x then k (MState (Some x) t g) else None.
Proof. done. Qed.

Section StarOfClass.
Context {A : Type} (p : char -> bool) (k : mstate -> option A).

(** The greedy loop returns what the continuation makes of the longest
    run, when that succeeds. *)
Lemma star_cls_first (s : str) (n : nat) (pv : option char)
    (g : option str) (res : A) :
  (length s ≤ n)%nat →
  k (after_run p pv s g) = Some res →
  star_loop (rmatch (Cls p)) k n (MState pv s g) = Some res.
Proof.
  revert n pv. induction s as [|x t IH]; intros n pv Hn Hk.
  - rewrite after_run_stop in Hk by done.
    destruct n; [done|]. by rewrite star_loop_S.
  - destruct n as [|n]; [cbn [length] in Hn; lia|].
    rewrite star_loop_S, rmatch_cls_cons. destruct (p x) eqn:Hx.
    + cbn [rest length].
      destruct (Nat.ltb_spec (length t) (S (length t))); [|lia].
      assert (Hlen : (length t ≤ n)%nat) by (cbn [length] in Hn; lia).
      rewrite <- (after_run_cons p pv) in Hk by done.
      by rewrite (IH n (Some x) Hlen Hk).
    + rewrite after_run_stop in Hk; [done|]. cbn [run]. by rewrite Hx.
Qed.


Lemma plus_cls_first (s : str) (pv : option char) (g : option str)
    (res : A) :
  run p s ≠ [] →
  k (after_run p pv s g) = Some res →
  rmatch (Plus (Cls p)) (MState pv s g) k = Some res.
Proof.
  intros Hne Hk. destruct s as [|x t]; [done|].
  cbn [run] in Hne. unfold Plus.
  change (rmatch (Cat (Cls p) (Star (Cls p))) ?st k)
    with (rmatch (Cls p) st (fun st' => rmatch (Star (Cls p)) st' k)).
  rewrite rmatch_cls_cons.
  destruct (p x) eqn:Hx; [|done].
  change (rmatch (Star (Cls p)) (MState (Some x) t g) k)
    with (star_loop (rmatch (Cls p)) k (length t) (MState (Some x) t g)).
  apply star_cls_first; [done|]. by rewrite (after_run_cons p pv).
Qed.

Lemma plus_cls_none (s : str) (pv : option char) (g : option str) :
  run p s = [] → rmatch (Plus (Cls p)) (MState pv s g) k = None.
Proof.
  intros He. destruct s as [|x t]; [done|].
  cbn [run] in He. unfold Plus.
  change (rmatch (Cat (Cls p) (Star (Cls p))) ?st k)
    with (rmatch (Cls p) st (fun st' => rmatch (Star (Cls p)) st' k)).
  rewrite rmatch_cls_cons. by destruct (p x).
Qed.

End StarOfClass.

Lemma word_match {A : Type} (k : mstate -> option A) (w : str)
    (pv : option char) (s : str) (g : option str) :
  rmatch (Word w) (MState pv s g) k =
    if startswith s w
    then k (MState (prev_after pv w) (drop (length w) s) g)
    else None.
Proof.
  revert pv s. induction w as [|c w IH]; intros pv s; [done|].
  assert (Hstep : rmatch (Word (c :: w)) (MState pv s g) k =
                  rmatch (Chr c) (MState pv s g)
                    (fun st => rmatch (Word w) st k)).
  { destruct w; done. }
  rewrite Hstep. destruct s as [|x t]; [done|].
  change (rmatch (Chr c) (MState pv (x :: t) g) ?k')
    with (if N.eqb x c then k' (MState (Some x) t g) else None).
  cbn [startswith]. rewrite (N.eqb_sym c x).
  destruct (N.eqb_spec x c) as [->|]; [|done].
  cbn [andb length drop]. rewrite IH.
  by rewrite (prev_after_cons pv).
Qed.

(** The reference pattern, run by the matcher, is [ref_at]. *)
Lemma match_here_var_ref (pv : option char) (s : str) :
  match_here VAR_REF_RE pv s = ref_at pv s.
Proof.
  unfold match_here, VAR_REF_RE, ref_at. cbn [Seq rmatch prev].
  assert (Hbody :
    rmatch (Word (u "var."))
      {| prev := pv; rest := s; grp := None |}
      (fun st' => rmatch (Group (Plus (Cls is_ident))) st'
         (fun st => Some (default [] (grp st),
                          (length s - length (rest st))%nat))) =
    if startswith s (u "var.") then
      match run is_ident (drop 4 s) with
      | [] => None
      | w => Some (w, (4 + length w)%nat)
      end
    else None).
  { rewrite word_match. destruct (startswith s (u "var.")) eqn:Hs; [|done].
    apply startswith_spec in Hs as [t ->].
    change (length (u "var.")) with 4%nat.
    change (drop 4 (u "var." ++ t)) with t.
    cbn [rmatch].
    destruct (run is_ident t) as [|c r] eqn:Hr.
    - by apply plus_cls_none.
    - apply plus_cls_first; [by rewrite Hr|].
      unfold close_group, after_run. cbn [rest grp default prev].
      rewrite length_drop.
      replace (length t - (length t - length (run is_ident t)))%nat
        with (length (run is_ident t))
        by (pose proof (run_length is_ident t); lia).
      rewrite run_take, Hr. do 2 f_equal.
      rewrite length_app.
      pose proof (run_length is_ident t) as Hl. rewrite Hr in Hl.
      change (length (u "var.")) with 4%nat. lia. }
  destruct pv as [c|]; [destruct (is_ident c)|]; done.
Qed.

(** ** Scanning for matches *)

Lemma ref_at_spec (pv : option char) (s w : str) (n : nat) :
  ref_at pv s = Some (w, n) ↔ ref_match pv s w n.
Proof.
  unfold ref_at, ref_match. split.
  - intros H. split.
    + intros c ->. by destruct (is_ident c).
    + destruct (match pv with Some c => is_ident c | None => false end);
        [done|].
      destruct (startswith s (u "var.")) eqn:Hs; [|done].
      apply startswith_spec in Hs as [t ->].
      change (drop 4 (u "var." ++ t)) with t in H.
      destruct (run is_ident t) as [|c r] eqn:Hr; [done|].
      injection H as <- <-.
      exists (drop (length (run is_ident t)) t). rewrite <- Hr.
      split; [by rewrite run_app|].
      split; [|split; [apply run_stops | by rewrite Hr]].
      split; [by rewrite Hr | apply run_all].
  - intros [Hpv (t & -> & [Hne Hw] & Ht & ->)].
    assert (Hb : match pv with Some c => is_ident c | None => false end
                 = false).
    { destruct pv as [c|]; [by apply Hpv | done]. }
    rewrite Hb.
    assert (Hs : startswith (u "var." ++ w ++ t) (u "var.") = true).
    { apply startswith_spec. by exists (w ++ t). }
    rewrite Hs. change (drop 4 (u "var." ++ w ++ t)) with (w ++ t).
    rewrite run_unique by done. by destruct w.
Qed.

Lemma ref_match_span (pv : option char) (s w : str) (n : nat) :
  ref_match pv s w n → (0 < n ≤ length s)%nat.
Proof.
  intros [_ (t & -> & _ & _ & ->)]. rewrite !length_app.
  change (length (u "var.")) with 4%nat. lia.
Qed.

Lemma matches_from_inv (P : option char -> str -> str -> nat -> Prop)
    (pv : option char) (s : str) (l : list str) :
  matches_from P pv s l →
  (s = [] ∧ l = [] ∧ ∀ w n, ¬ P pv [] w n) ∨
  (∃ c t, s = c :: t ∧ (∀ w n, ¬ P pv s w n) ∧
          matches_from P (Some c) t l) ∨
  (∃ body t w l0, s = body ++ t ∧ body ≠ [] ∧ l = w :: l0 ∧
                  P pv s w (length body) ∧ matches_from P (last body) t l0).
Proof.
  destruct 1 as [pv Hno | pv c t l Hno H | pv body t w l Hne HP H].
  - by left.
  - right. left. by exists c, t.
  - right. right. by exists body, t, w, l.
Qed.

Section Scan.
Context (m : option char -> str -> option (str * nat)).
Context (P : option char -> str -> str -> nat -> Prop).
Hypothesis m_spec : ∀ pv s w n, m pv s = Some (w, n) ↔ P pv s w n.
Hypothesis P_span : ∀ pv s w n, P pv s w n → (0 < n ≤ length s)%nat.

Lemma scan_skip (k : nat) (s : str) (pv : option char) :
  (k ≤ length s)%nat →
  scan m pv k s = scan m (prev_after pv (take k s)) O (drop k s).
Proof.
  revert s pv. induction k as [|k IH]; intros s pv Hk.
  - by destruct s.
  - destruct s as [|c t]; [cbn [length] in Hk; lia|].
    cbn [scan take drop]. rewrite IH by (cbn [length] in Hk; lia).
    by rewrite (prev_after_cons pv).
Qed.

Lemma P_functional (pv : option char) (s w w' : str) (n n' : nat) :
  P pv s w n → P pv s w' n' → w = w' ∧ n = n'.
Proof.
  intros H1%m_spec H2%m_spec. rewrite H1 in H2. by injection H2.
Qed.

(** The scan finds the leftmost non-overlapping matches. *)
Lemma scan_matches (s : str) (pv : option char) :
  matches_from P pv s (scan m pv O s).
Proof.
  remember (length s) as len eqn:Hlen.
  revert s pv Hlen. induction len as [len IH] using lt_wf_ind.
  intros s pv ->.
  destruct (m pv s) as [[w n]|] eqn:Hm.
  - pose proof (proj1 (m_spec _ _ _ _) Hm) as HP.
    pose proof (P_span _ _ _ _ HP) as Hn.
    destruct s as [|c t]; [cbn [length] in Hn; lia|].
    destruct n as [|n]; [lia|].
    cbn [scan]. rewrite Hm. cbn [Nat.pred].
    rewrite scan_skip by (cbn [length] in Hn; lia).
    rewrite (prev_after_cons pv).
    assert (Hsplit : c :: t = (c :: take n t) ++ drop n t).
    { cbn [app]. by rewrite take_drop. }
    assert (Hlenb : length (c :: take n t) = S n).
    { cbn [length] in *. rewrite length_take. lia. }
    assert (Hlast : prev_after pv (c :: take n t) = last (c :: take n t)).
    { unfold prev_after. destruct (last (c :: take n t)) eqn:E; [done|].
      by apply last_None in E. }
    rewrite Hlast. rewrite Hsplit at 1. apply mf_hit.
    + done.
    + by rewrite Hlenb, <- Hsplit.
    + eapply IH; [|reflexivity].
      cbn [length]. rewrite length_drop. lia.
  - destruct s as [|c t].
    + cbn [scan]. rewrite Hm. apply mf_end.
      intros w n HP%m_spec. congruence.
    + cbn [scan]. rewrite Hm. apply mf_miss.
      * intros w n HP%m_spec. congruence.
      * eapply IH; [|reflexivity]. cbn [length]. lia.
Qed.

(** They are the only such list. *)
Lemma matches_from_functional (pv : option char) (s : str)
    (l l' : list str) :
  matches_from P pv s l → matches_from P pv s l' → l = l'.
Proof.
  intros H. revert l'.
  induction H as [pv Hno | pv c t l Hno H IH | pv body t w l Hne HP H IH];
    intros l' H'; apply matches_from_inv in H'
      as [(Hs & -> & _) | [(c' & t' & Hs & Hno' & H')
                         | (body' & t' & w' & l0 & Hs & Hne' & -> & HP' & H')]].
  - done.
  - done.
  - symmetry in Hs. apply app_eq_nil in Hs as [-> _]. done.
  - done.
  - injection Hs as <- <-. by apply IH.
  - by destruct (Hno _ _ HP').
  - apply app_eq_nil in Hs as [-> _]. done.
  - rewrite Hs in HP. rewrite Hs in Hno'. by destruct (Hno' _ _ HP).
  - destruct (P_functional _ _ _ _ _ _ HP HP') as [<- Hlen].
    apply app_inj_1 in Hs as [<- <-]; [|done].
    f_equal. by apply IH.
Qed.
End Scan.

Lemma matches_from_captures (P : option char -> str -> str -> nat -> Prop)
    (Q : str -> Prop) (pv : option char) (s : str) (l : list str) :
  (∀ pv s w n, P pv s w n → Q w) → matches_from P pv s l → Forall Q l.
Proof.
  intros HQ H. induction H; [done | done |].
  constructor; [by eapply HQ | done].
Qed.

(** ** The reference extractor *)

Lemma scan_ext (m m' : option char -> str -> option (str * nat))
    (pv : option char) (k : nat) (s : str) :
  (∀ pv s, m pv s = m' pv s) → scan m pv k s = scan m' pv k s.
Proof.
  intros Hext. revert pv k. induction s as [|c t IH]; intros pv k.
  - destruct k; cbn [scan]; [|done]. by rewrite Hext.
  - destruct k; cbn [scan]; [|done]. rewrite Hext.
    destruct (m' pv (c :: t)) as [[]|]; by rewrite IH.
Qed.

Lemma findall_var_ref (txt : str) :
  findall VAR_REF_RE txt = scan ref_at None O txt.
Proof. apply scan_ext, match_here_var_ref. Qed.

(** C7. On a file whose text can be read, the reference extractor
    returns the set of names captured by the matches of
    [var.<identifier>] found from left to right without overlap, a match
    needing no identifier character before [var] and one or more
    identifier characters after the dot. The result is a function of the
    text alone: the structured parser has no part in it. *)
Theorem references_are_lexical_matches (w : world) (path txt : str) :
  read_text w path = Ok txt →
  ∃ l,
    parse_used_vars_from_tf w path = (Ok (list_to_set l), []) ∧
    matches_from ref_match None txt l ∧
    (∀ l', matches_from ref_match None txt l' → l' = l) ∧
    Forall identifier l ∧
    (∀ w', read_text w' path = Ok txt →
           parse_used_vars_from_tf w' path = (Ok (list_to_set l), [])).
Proof.
  intros Hr. exists (findall VAR_REF_RE txt).
  assert (Hm : matches_from ref_match None txt (findall VAR_REF_RE txt)).
  { rewrite findall_var_ref.
    apply (scan_matches ref_at ref_match ref_at_spec ref_match_span). }
  split; [|split; [done|split; [|split]]].
  - unfold parse_used_vars_from_tf. by rewrite Hr.
  - intros l' Hl'.
    by apply (matches_from_functional ref_at ref_match ref_at_spec
                None txt l' _ Hl' Hm).
  - apply (matches_from_captures ref_match identifier None txt); [|done].
    by intros pv s x n [_ (t & _ & Hid & _)].
  - intros w' Hr'. unfold parse_used_vars_from_tf. by rewrite Hr'.
Qed.

Lemma references_are_lexical_matches_witness :
  parse_used_vars_from_tf Sample.w_drift (u "main.tf")
    = (Ok {[u "region"; u "project_id"]}, []) ∧
  matches_from ref_match None Sample.main_tf [u "region"; u "project_id"].
Proof.
  destruct (references_are_lexical_matches Sample.w_drift (u "main.tf")
              Sample.main_tf) as (l & Hp & Hm & Hu & _).
  - reflexivity.
  - assert (Hl : l = [u "region"; u "project_id"]).
    { symmetry. apply Hu.
      replace [u "region"; u "project_id"]
        with (scan ref_at None O Sample.main_tf)
        by (vm_compute; reflexivity).
      apply (scan_matches ref_at ref_match ref_at_spec ref_match_span). }
    subst l. split; [|exact Hm]. rewrite Hp. vm_compute. reflexivity.
Defined.

(** A reference inside a longer name is no match, and a match that
    begins inside an earlier one is not counted. *)
Lemma ref_match_needs_boundary (c : char) (s w : str) (n : nat) :
  is_ident c = true → ¬ ref_match (Some c) s w n.
Proof. intros Hc [Hpv _]. specialize (Hpv c eq_refl). congruence. Qed.

Example longer_name_is_no_reference :
  findall VAR_REF_RE (u "x = myvar.x") = [].
Proof. reflexivity. Qed.

Example overlapped_reference_not_counted :
  findall VAR_REF_RE (u "var.var.x") = [u "var"].
Proof. reflexivity. Qed.

(** ** The header pattern of the fallback *)











(** ** The declaration extractor *)

Lemma for_each_ext {S A} (body body' : S -> A -> M S) (s : S) (l : list A) :
  (∀ s x, body s x = body' s x) → for_each body s l = for_each body' s l.
Proof.
  intros Hext. revert s. induction l as [|x l IH]; intros s; [done|].
  cbn [for_each]. rewrite Hext. destruct (body' s x) as [[s'|e] o]; [|done].
  by rewrite !bind_ok, IH.
Qed.

Lemma foldl_add_names (d : gset str) (names : list str) :
  foldl (fun (d : gset str) name => d ∪ {[name]}) d names
  = d ∪ list_to_set names.
Proof.
  revert d. induction names as [|x l IH]; intros d; cbn [foldl list_to_set].
  - by rewrite union_empty_r_L.
  - by rewrite IH, (assoc_L (∪)).
Qed.

Lemma foldl_add_entries (d : gset str) (entries : list pyval) :
  foldl (fun (d : gset str) entry => d ∪ declared_of_entry entry) d entries
  = d ∪ declared_of_entries entries.
Proof.
  unfold declared_of_entries.
  revert d. induction entries as [|x l IH]; intros d; cbn [foldl map].
  - by rewrite union_list_nil, union_empty_r_L.
  - by rewrite IH, union_list_cons, (assoc_L (∪)).
Qed.

Lemma lookup_key_in (key : str) (kvs : list (str * pyval)) (v : pyval) :
  lookup_key key kvs = Some v → key ∈ keys kvs.
Proof.
  induction kvs as [|[k x] t IH]; [done|]. cbn [lookup_key keys map fst].
  case_bool_decide as Hk.
  - intros _. rewrite Hk. left.
  - intros H. right. by apply IH.
Qed.

Lemma lookup_key_none (key : str) (kvs : list (str * pyval)) :
  lookup_key key kvs = None → key ∉ keys kvs.
Proof.
  induction kvs as [|[k x] t IH]; cbn [lookup_key keys map fst].
  - intros _. apply not_elem_of_nil.
  - case_bool_decide as Hk; [done|]. intros H.
    apply not_elem_of_cons. split; [congruence | by apply IH].
Qed.

(** A block whose [variable] entry is a list adds the keys of the
    mappings in it and steps over every other entry. *)
Lemma declared_in_block_list (d : gset str) (kvs : list (str * pyval))
    (entries : list pyval) :
  lookup_key (u "variable") kvs = Some (PList entries) →
  declared_in_block d (PDict kvs) = (Ok (d ∪ declared_of_entries entries), []).
Proof.
  intros Hl. unfold declared_in_block. cbn [py_in py_getitem].
  rewrite bool_decide_true by (by eapply lookup_key_in).
  rewrite Hl. unfold lift. rewrite !bind_ok. cbn [fst snd py_iter app].
  rewrite !bind_ok. cbn [fst snd app].
  rewrite (for_each_ext _
             (fun d entry => ret (d ∪ declared_of_entry entry))).
  - by rewrite for_each_pure, foldl_add_entries.
  - intros s [| | | | | |kv]; cbn [declared_of_entry];
      rewrite ?union_empty_r_L; try done.
    by rewrite for_each_pure, foldl_add_names.
Qed.

(** A block without a [variable] entry adds nothing. *)
Lemma declared_in_block_other (d : gset str) (kvs : list (str * pyval)) :
  lookup_key (u "variable") kvs = None →
  declared_in_block d (PDict kvs) = (Ok d, []).
Proof.
  intros Hl. unfold declared_in_block. cbn [py_in].
  rewrite bool_decide_false by (by apply lookup_key_none). by msimpl.
Qed.

(** A document that is neither a mapping nor a list declares nothing. *)
Lemma declared_in_document_scalar (d : gset str) (data : pyval) :
  is_dict data = false → is_list data = false →
  declared_in_document d data = (Ok d, []).
Proof. by destruct data. Qed.

(** A document that parses is handled by the structured branch alone. *)
Lemma parse_declared_structured (w : world) (path txt : str) (data : pyval) :
  read_text w path = Ok txt → hcl2_loads w txt = Ok data →
  parse_declared_vars_from_tf w path = declared_in_document ∅ data.
Proof.
  intros Hr Hp. unfold parse_declared_vars_from_tf, hcl_load.
  rewrite Hr. mrun. rewrite Hp. mrun.
  by destruct (declared_in_document ∅ data).
Qed.


(** When the text cannot be read, the handler's own read raises. *)
Lemma parse_declared_unreadable (w : world) (path : str) (e : exn) :
  read_text w path = Raise e →
  parse_declared_vars_from_tf w path = (Raise e, [LogRegexFallback path e]).
Proof.
  intros Hr. unfold parse_declared_vars_from_tf, hcl_load.
  rewrite Hr. by mrun.
Qed.

Example fallback_on_broken_file :
  parse_declared_vars_from_tf Sample.w_broken (u "broken.tf")
  = (Ok {[u "region"; u "env"]},
     [LogRegexFallback (u "broken.tf") ParseError]).
Proof. vm_compute. reflexivity. Qed.

(** C5. A configuration file that cannot be read as text makes the
    structured load raise, and the handler then reads the same file
    again outside any [try]: the fallback raises and the script ends on
    the exception. *)
Theorem fallback_raises_on_unreadable_file :
  parse_declared_vars_from_tf Sample.w_unreadable (u "data.tf")
    = (Raise UnicodeDecodeError,
       [LogRegexFallback (u "data.tf") UnicodeDecodeError]) ∧
  script Sample.w_unreadable
    = (1%Z, [LogStart (u "/repo");
             LogRegexFallback (u "data.tf") UnicodeDecodeError;
             Traceback UnicodeDecodeError]).
Proof. split; vm_compute; reflexivity. Qed.

(** C10. The structured branch tests the type of the document and of
    each entry, not of what lies between: a [variable] entry that is not
    iterable, or a list element that is not a container, raises after
    the parse has succeeded, outside the [try], and ends the script. *)
Theorem structured_branch_raises_on_attribute :
  declared_in_document ∅ (PDict [(u "variable", PInt 5)])
    = (Raise TypeError, []) ∧
  declared_in_document ∅ (PList [PInt 1]) = (Raise TypeError, []) ∧
  parse_declared_vars_from_tf Sample.w_attribute (u "bad.tf")
    = (Raise TypeError, []) ∧
  script Sample.w_attribute
    = (1%Z, [LogStart (u "/repo"); Traceback TypeError]).
Proof. repeat split; vm_compute; reflexivity. Qed.

(** ** The accumulators *)

#[export] Instance sets_le_preorder : PreOrder sets_le.
Proof.
  split.
  - by intros a.
  - intros a b c (? & ? & ?) (? & ? & ?). repeat split; by etrans.
Qed.

Lemma tf_body_union (w : world) (a a' : sets) (path : str) (out : list event) :
  tf_body w a path = (Ok a', out) →
  (should_skip path = (Ok true, out) ∧ a' = a) ∨
  ∃ d us o1 o2,
    should_skip path = (Ok false, []) ∧
    parse_declared_vars_from_tf w path = (Ok d, o1) ∧
    parse_used_vars_from_tf w path = (Ok us, o2) ∧
    a' = Sets (declared a ∪ d) (used a ∪ us) (tfvars_keys a).
Proof.
  unfold tf_body. rewrite should_skip_cases.
  destruct (negb _); [|destruct (existsb _ _)]; msimpl.
  - intros [= <- <-]. by left.
  - intros [= <- <-]. by left.
  - destruct (parse_declared_vars_from_tf w path) as [[d|e] o1]; msimpl;
      [|done].
    destruct (parse_used_vars_from_tf w path) as [[us|e] o2]; msimpl; [|done].
    intros [= <- <-]. right. by exists d, us, o1, o2.
Qed.

Lemma tfvars_body_union (w : world) (a a' : sets) (path : str)
    (out : list event) :
  tfvars_body w a path = (Ok a', out) →
  (should_skip path = (Ok true, out) ∧ a' = a) ∨
  ∃ ks o1,
    should_skip path = (Ok false, []) ∧
    parse_tfvars w path = (Ok ks, o1) ∧
    a' = Sets (declared a) (used a) (tfvars_keys a ∪ ks).
Proof.
  unfold tfvars_body. rewrite should_skip_cases.
  destruct (negb _); [|destruct (existsb _ _)]; msimpl.
  - intros [= <- <-]. by left.
  - intros [= <- <-]. by left.
  - destruct (parse_tfvars w path) as [[ks|e] o1]; msimpl; [|done].
    intros [= <- <-]. right. by exists ks, o1.
Qed.

Lemma tf_body_le (w : world) (a : sets) (path : str) (a' : sets)
    (out : list event) :
  tf_body w a path = (Ok a', out) → sets_le a a'.
Proof.
  intros [[_ ->] | (d & us & o1 & o2 & _ & _ & _ & ->)]%tf_body_union;
    [done|].
  repeat split; cbn [declared used tfvars_keys];
    [apply union_subseteq_l | apply union_subseteq_l | done].
Qed.

Lemma tfvars_body_le (w : world) (a : sets) (path : str) (a' : sets)
    (out : list event) :
  tfvars_body w a path = (Ok a', out) → sets_le a a'.
Proof.
  intros [[_ ->] | (ks & o1 & _ & _ & ->)]%tfvars_body_union; [done|].
  repeat split; cbn [declared used tfvars_keys];
    [done | done | apply union_subseteq_l].
Qed.

Section Loops.
Context {S A : Type} (R : relation S) `{!PreOrder R}.
Context (body : S -> A -> M S).
Hypothesis body_grows : ∀ s x s' out, body s x = (Ok s', out) → R s s'.

Lemma for_each_grows (l : list A) (s s' : S) (out : list event) :
  for_each body s l = (Ok s', out) → R s s'.
Proof.
  revert s out. induction l as [|x l IH]; intros s out; cbn [for_each].
  - by intros [= <- _].
  - intros (s1 & o1 & o2 & H1 & H2 & _)%bind_ok_inv.
    etrans; [by eapply body_grows | by eapply IH].
Qed.

Lemma for_each_split (l1 : list A) (x : A) (l2 : list A) (s s' : S)
    (out : list event) :
  for_each body s (l1 ++ x :: l2) = (Ok s', out) →
  ∃ s1 s2 o1 o2 o3,
    for_each body s l1 = (Ok s1, o1) ∧ body s1 x = (Ok s2, o2) ∧
    for_each body s2 l2 = (Ok s', o3) ∧
    R s s1 ∧ R s1 s2 ∧ R s2 s'.
Proof.
  rewrite for_each_app.
  intros (s1 & o1 & o23 & H1 & H23 & _)%bind_ok_inv.
  cbn [for_each] in H23.
  apply bind_ok_inv in H23 as (s2 & o2 & o3 & H2 & H3 & _).
  exists s1, s2, o1, o2, o3. repeat split; try done.
  - by eapply for_each_grows.
  - by eapply body_grows.
  - by eapply for_each_grows.
Qed.
End Loops.

Lemma collect_stages (w : world) (a : sets) (out : list event) :
  collect w = (Ok a, out) →
  ∃ a1 a2 o1 o2 o3,
    for_each (tf_body w) (Sets ∅ ∅ ∅) (glob_tf w) = (Ok a1, o1) ∧
    for_each (tfvars_body w) a1 (glob_tfvars w) = (Ok a2, o2) ∧
    for_each (tfvars_body w) a2 (glob_tfvars_json w) = (Ok a, o3) ∧
    sets_le a1 a2 ∧ sets_le a2 a.
Proof.
  unfold collect.
  intros (a1 & o1 & o' & H1 & H' & _)%bind_ok_inv.
  apply bind_ok_inv in H' as (a2 & o2 & o3 & H2 & H3 & _).
  exists a1, a2, o1, o2, o3.
  split; [done|]. split; [done|]. split; [done|]. split.
  - apply (for_each_grows sets_le _ (tfvars_body_le w) _ _ _ _ H2).
  - apply (for_each_grows sets_le _ (tfvars_body_le w) _ _ _ _ H3).
Qed.

(** C9. Each loop body either leaves the accumulators alone or unions
    one file's extraction results into them; so within a loop the
    accumulators before a file are included in those after it, these in
    the loop's result, and each loop's result in the sets that reach the
    comparison. *)
Theorem accumulators_grow_by_union (w : world) :
  (∀ a path a' out,
     tf_body w a path = (Ok a', out) →
     a' = a ∨
     ∃ d us o1 o2,
       parse_declared_vars_from_tf w path = (Ok d, o1) ∧
       parse_used_vars_from_tf w path = (Ok us, o2) ∧
       a' = Sets (declared a ∪ d) (used a ∪ us) (tfvars_keys a)) ∧
  (∀ a path a' out,
     tfvars_body w a path = (Ok a', out) →
     a' = a ∨
     ∃ ks o1,
       parse_tfvars w path = (Ok ks, o1) ∧
       a' = Sets (declared a) (used a) (tfvars_keys a ∪ ks)) ∧
  (∀ body, body = tf_body w ∨ body = tfvars_body w →
     ∀ a before path after a' out,
       for_each body a (before ++ path :: after) = (Ok a', out) →
       ∃ a1 a2 o1 o2,
         for_each body a before = (Ok a1, o1) ∧
         body a1 path = (Ok a2, o2) ∧
         sets_le a a1 ∧ sets_le a1 a2 ∧ sets_le a2 a') ∧
  (∀ a out,
     collect w = (Ok a, out) →
     ∃ a1 a2 o1 o2,
       for_each (tf_body w) (Sets ∅ ∅ ∅) (glob_tf w) = (Ok a1, o1) ∧
       for_each (tfvars_body w) a1 (glob_tfvars w) = (Ok a2, o2) ∧
       sets_le a1 a2 ∧ sets_le a2 a).
Proof.
  split; [|split; [|split]].
  - intros a path a' out
      [[_ ->] | (d & us & o1 & o2 & _ & ? & ? & ->)]%tf_body_union;
      [by left | right; by exists d, us, o1, o2].
  - intros a path a' out
      [[_ ->] | (ks & o1 & _ & ? & ->)]%tfvars_body_union;
      [by left | right; by exists ks, o1].
  - intros body Hbody a before path after a' out H.
    assert (Hle : ∀ s x s' o, body s x = (Ok s', o) → sets_le s s').
    { destruct Hbody as [-> | ->]; [apply tf_body_le | apply tfvars_body_le]. }
    destruct (for_each_split sets_le body Hle _ _ _ _ _ _ H)
      as (a1 & a2 & o1 & o2 & o3 & ? & ? & ? & ? & ? & ?).
    by exists a1, a2, o1, o2.
  - intros a out (a1 & a2 & o1 & o2 & o3 & ? & ? & ? & ? & ?)%collect_stages.
    by exists a1, a2, o1, o2.
Qed.

Lemma accumulators_grow_by_union_witness :
  ∃ a1 a2 o1 o2,
    for_each (tf_body Sample.w_drift) (Sets ∅ ∅ ∅) [u "variables.tf"]
      = (Ok a1, o1) ∧
    tf_body Sample.w_drift a1 (u "main.tf") = (Ok a2, o2) ∧
    sets_le (Sets ∅ ∅ ∅) a1 ∧ sets_le a1 a2 ∧
    sets_le a2 (Sets {[u "region"; u "env"; u "legacy"]}
                     {[u "region"; u "project_id"]} ∅).
Proof.
  destruct (accumulators_grow_by_union Sample.w_drift) as (_ & _ & H & _).
  apply (H (tf_body Sample.w_drift) (or_introl eq_refl) (Sets ∅ ∅ ∅)
           [u "variables.tf"] (u "main.tf") [u "modules/vendor/x.tf"]
           _ [LogSkipIgnoredDir (u "modules/vendor/x.tf")]).
  vm_compute. reflexivity.
Defined.

(** ** The override extractor *)


(** ** Sorting names *)

Lemma str_leb_refl (a : str) : str_leb a a = true.
Proof.
  induction a as [|x a IH]; simpl; [done|].
  by rewrite N.ltb_irrefl, N.eqb_refl.
Qed.

Lemma str_leb_total (a b : str) : str_leb a b = true ∨ str_leb b a = true.
Proof.
  revert b. induction a as [|x a IH]; intros [|y b]; simpl; auto.
  destruct (N.ltb_spec x y), (N.ltb_spec y x); auto; try lia.
  assert (x = y) as -> by lia. rewrite N.eqb_refl. apply IH.
Qed.

Lemma str_leb_trans (a b c : str) :
  str_leb a b = true → str_leb b c = true → str_leb a c = true.
Proof.
  revert b c. induction a as [|x a IH]; intros [|y b] [|z c]; simpl; auto;
    try done.
  destruct (N.ltb_spec x y), (N.ltb_spec y z), (N.ltb_spec x z);
    auto; try lia;
    destruct (N.eqb_spec x y), (N.eqb_spec y z), (N.eqb_spec x z);
    try done; try lia.
  apply IH.
Qed.

Lemma str_leb_antisym (a b : str) :
  str_leb a b = true → str_leb b a = true → a = b.
Proof.
  revert b. induction a as [|x a IH]; intros [|y b]; simpl; auto; try done.
  destruct (N.ltb_spec x y), (N.ltb_spec y x),
    (N.eqb_spec x y), (N.eqb_spec y x); try lia; try done.
  intros ? ?. f_equal; auto.
Qed.

#[export] Instance str_le_total : Total str_le.
Proof. intros a b. apply str_leb_total. Qed.

#[export] Instance str_le_trans : Transitive str_le.
Proof. intros a b c. apply str_leb_trans. Qed.

Lemma sorted_is_listing (X : gset str) : sorted_listing (sorted X) X.
Proof.
  unfold sorted_listing, sorted. split; [|split].
  - apply StronglySorted_merge_sort; apply _.
  - rewrite merge_sort_Permutation. apply NoDup_elements.
  - intros s. rewrite merge_sort_Permutation. apply elem_of_elements.
Qed.

Lemma sorted_listing_unique (l1 l2 : list str) (X : gset str) :
  sorted_listing l1 X → sorted_listing l2 X → l1 = l2.
Proof.
  intros (S1 & N1 & E1) (S2 & N2 & E2).
  assert (Hperm : l1 ≡ₚ l2).
  { apply NoDup_Permutation; try done. intros s. by rewrite E1, E2. }
  clear E1 E2 N1 N2 X.
  revert l2 S2 Hperm. induction S1 as [|x l1 S1 IH Hx]; intros l2 S2 Hperm.
  - by apply Permutation_nil_l in Hperm.
  - destruct S2 as [|y l2 S2 Hy].
    + by apply Permutation_nil_r in Hperm.
    + assert (x = y) as ->.
      { assert (Hxin : x ∈ y :: l2) by (rewrite <- Hperm; left).
        assert (Hyin : y ∈ x :: l1) by (rewrite Hperm; left).
        apply elem_of_cons in Hxin as [?|Hxin]; [done|].
        apply elem_of_cons in Hyin as [?|Hyin]; [done|].
        rewrite Forall_forall in Hx, Hy.
        apply str_leb_antisym; [by apply Hx | by apply Hy]. }
      f_equal. apply IH; [done|]. by apply Permutation_cons_inv in Hperm.
Qed.

Lemma sorted_nil_iff (X : gset str) : sorted X = [] ↔ X = ∅.
Proof.
  destruct (sorted_is_listing X) as (_ & _ & E). split.
  - intros H. apply set_eq. intros s. rewrite <- E, H.
    split; [by intros ?%elem_of_nil | by intros ?%elem_of_empty].
  - intros ->. destruct (sorted ∅) as [|s l] eqn:Hs; [done|].
    assert (Hin : s ∈ (∅ : gset str)); [|by apply elem_of_empty in Hin].
    rewrite <- (proj2 (proj2 (sorted_is_listing ∅)) s), Hs. left.
Qed.

(** ** The comparison and the exit status *)

Lemma analyse_ok (w : world) (a : sets) (ig : gset str) (o1 o2 : list event) :
  collect w = (Ok a, o1) →
  load_ignorelist w = (Ok ig, o2) →
  analyse w = (Ok (a, ig, compare a ig),
               LogStart (cwd w) :: o1 ++ o2 ++ [LogComparing]).
Proof.
  intros Hc Hl. unfold analyse. msimpl. rewrite Hc. msimpl.
  by rewrite Hl; msimpl.
Qed.

Lemma analyse_ok_inv (w : world) (a : sets) (ig : gset str) (d : drift)
    (out : list event) :
  analyse w = (Ok (a, ig, d), out) →
  d = compare a ig ∧
  ∃ o1 o2, collect w = (Ok a, o1) ∧ load_ignorelist w = (Ok ig, o2) ∧
           out = LogStart (cwd w) :: o1 ++ o2 ++ [LogComparing].
Proof.
  unfold analyse. msimpl.
  destruct (collect w) as [[a'|e] o1]; msimpl; [|done].
  destruct (load_ignorelist w) as [[ig'|e] o2]; msimpl; [|done].
  intros [= -> -> <- <-]. split; [done|]. by exists o1, o2.
Qed.

Lemma report_status (d : drift) :
  ∃ out, report d =
    (Ok (match unused d, missing d, tfvars_extra d with
         | [], [], [] => 0%Z
         | _, _, _ => 1%Z
         end), out).
Proof.
  unfold report.
  destruct (unused d), (missing d), (tfvars_extra d);
    cbn [print_if]; msimpl; eauto.
Qed.

Lemma main_after_analyse (w : world) (a : sets) (ig : gset str) (d : drift)
    (out : list event) :
  analyse w = (Ok (a, ig, d), out) →
  main w = (fst (report d),
            out ++ [LogDeclared (size (declared a)); LogUsed (size (used a));
                    LogTfvars (size (tfvars_keys a)); LogIgnored (size ig)]
                ++ snd (report d)).
Proof.
  intros H. unfold main. rewrite H. msimpl.
  by destruct (report d) as [r o].
Qed.

Lemma main_status (w : world) (code : Z) (out : list event) :
  main w = (Ok code, out) → code = 0%Z ∨ code = 1%Z.
Proof.
  unfold main. intros H.
  apply bind_ok_inv in H as ([[a ig] d] & o1 & o2 & _ & H & _).
  revert H. msimpl. destruct (report_status d) as [o ->]. cbn [fst snd].
  intros [= <- _]. destruct (unused d), (missing d), (tfvars_extra d); auto.
Qed.

(** C2. When the three loops leave the sets [D], [U], [K] and the ignore
    list loads as [I], the three categories the run reports are the
    ascending listings of [(D - U) - I], [(U - D) - I], [(K - D) - I]. *)
Theorem drift_categories_are_sorted_differences
    (w : world) (D U K I : gset str) (o1 o2 : list event) :
  collect w = (Ok (Sets D U K), o1) →
  load_ignorelist w = (Ok I, o2) →
  ∃ d out,
    analyse w = (Ok (Sets D U K, I, d), out) ∧
    unused d = sorted ((D ∖ U) ∖ I) ∧
    missing d = sorted ((U ∖ D) ∖ I) ∧
    tfvars_extra d = sorted ((K ∖ D) ∖ I) ∧
    sorted_listing (unused d) ((D ∖ U) ∖ I) ∧
    sorted_listing (missing d) ((U ∖ D) ∖ I) ∧
    sorted_listing (tfvars_extra d) ((K ∖ D) ∖ I).
Proof.
  intros Hc Hl. eexists _, _. split; [by apply analyse_ok|].
  cbn [compare unused missing tfvars_extra declared used tfvars_keys].
  repeat split; try reflexivity; apply sorted_is_listing.
Qed.

Lemma drift_categories_witness :
  ∃ d out,
    analyse Sample.w_drift =
      (Ok (Sets {[u "region"; u "env"; u "legacy"]}
                {[u "region"; u "project_id"]}
                {[u "extra_flag"; u "region"]},
           {[u "legacy"]}, d), out) ∧
    unused d = [u "env"] ∧
    missing d = [u "project_id"] ∧
    tfvars_extra d = [u "extra_flag"].
Proof.
  destruct (drift_categories_are_sorted_differences Sample.w_drift
              {[u "region"; u "env"; u "legacy"]}
              {[u "region"; u "project_id"]}
              {[u "extra_flag"; u "region"]}
              {[u "legacy"]}
              [LogSkipIgnoredDir (u "modules/vendor/x.tf")]
              [LogLoadingIgnore; LogIgnoredVars [u "legacy"]])
    as (d & out & Ha & Hu & Hm & Hx & _).
  - vm_compute. reflexivity.
  - vm_compute. reflexivity.
  - exists d, out. split; [exact Ha|].
    rewrite Hu, Hm, Hx. vm_compute. auto.
Defined.

(** C3. The script ends with status 2 exactly when the parser library
    cannot be imported, and then nothing but the error line has been
    written. When [main] reaches the comparison it returns 0 if all three
    categories are empty and 1 otherwise, and that is the exit status;
    conversely a status of 0 is only reached that way, with all three
    categories empty. *)
Theorem exit_status (w : world) :
  (fst (script w) = 2%Z ↔ hcl2_installed w = false) ∧
  (hcl2_installed w = false → script w = (2%Z, [ErrHcl2Missing])) ∧
  (∀ a ig d out,
     analyse w = (Ok (a, ig, d), out) →
     ∃ code out',
       main w = (Ok code, out') ∧
       (code = 0%Z ↔ unused d = [] ∧ missing d = [] ∧ tfvars_extra d = []) ∧
       (¬ (unused d = [] ∧ missing d = [] ∧ tfvars_extra d = []) →
        code = 1%Z) ∧
       (hcl2_installed w = true → script w = (code, out'))) ∧
  (hcl2_installed w = true → fst (script w) = 0%Z →
   ∃ a ig d out,
     analyse w = (Ok (a, ig, d), out) ∧
     unused d = [] ∧ missing d = [] ∧ tfvars_extra d = []).
Proof.
  split; [|split; [|split]].
  - unfold script. destruct (hcl2_installed w); [|done].
    split; [|done].
    destruct (main w) as [[code|e] out] eqn:Hm; cbn [fst]; [|done].
    intros ->. by destruct (main_status _ _ _ Hm).
  - unfold script. by intros ->.
  - intros a ig d out Ha. apply main_after_analyse in Ha.
    destruct (report_status d) as [o Hr]. rewrite Hr in Ha. cbn [fst snd] in Ha.
    eexists _, _. split; [exact Ha|]. split; [|split].
    + destruct (unused d), (missing d), (tfvars_extra d); split;
        try done; by intros (? & ? & ?).
    + destruct (unused d), (missing d), (tfvars_extra d); try done.
      intros H. by destruct H.
    + unfold script. intros ->. by rewrite Ha.
  - unfold script. intros ->.
    destruct (main w) as [[code|e] out] eqn:Hm; cbn [fst]; [|done].
    intros ->. unfold main in Hm.
    apply bind_ok_inv in Hm as ([[a ig] d] & o1 & o2 & Ha & Hr & _).
    exists a, ig, d, o1. split; [done|].
    revert Hr. msimpl. destruct (report_status d) as [o ->]. cbn [fst snd].
    by destruct (unused d), (missing d), (tfvars_extra d).
Qed.

Lemma exit_status_witness :
  fst (script Sample.w_clean) = 0%Z ∧ fst (script Sample.w_drift) = 1%Z ∧
  script Sample.w_no_hcl2 = (2%Z, [ErrHcl2Missing]).
Proof.
  split; [|split].
  - destruct (exit_status Sample.w_clean) as (_ & _ & H & _).
    destruct (H (Sets {[u "a"; u "b"]} {[u "a"; u "b"]} {[u "a"]}) ∅
                (Drift [] [] [])
                [LogStart (u "/repo"); LogNoIgnoreFile; LogComparing])
      as (code & out' & _ & Hc & _ & Hs).
    + vm_compute. reflexivity.
    + rewrite Hs by reflexivity. cbn [fst]. by apply Hc.
  - destruct (exit_status Sample.w_drift) as (_ & _ & H & _).
    destruct (H (Sets {[u "region"; u "env"; u "legacy"]}
                      {[u "region"; u "project_id"]}
                      {[u "extra_flag"; u "region"]})
                {[u "legacy"]}
                (Drift [u "env"] [u "project_id"] [u "extra_flag"])
                [LogStart (u "/repo");
                 LogSkipIgnoredDir (u "modules/vendor/x.tf");
                 LogLoadingIgnore; LogIgnoredVars [u "legacy"]; LogComparing])
      as (code & out' & _ & _ & Hc & Hs).
    + vm_compute. reflexivity.
    + rewrite Hs by reflexivity. cbn [fst]. apply Hc.
      cbn [unused]. by intros [? _].
  - apply (exit_status Sample.w_no_hcl2). reflexivity.
Defined.

(** C4. A name on the ignore list is in none of the three reported
    categories, whatever the sets hold. *)
Theorem ignored_names_not_reported
    (w : world) (a : sets) (ig : gset str) (d : drift) (out : list event)
    (s : str) :
  analyse w = (Ok (a, ig, d), out) →
  s ∈ ig →
  (s ∉ unused d) ∧ (s ∉ missing d) ∧ (s ∉ tfvars_extra d).
Proof.
  intros Ha Hs. apply analyse_ok_inv in Ha as [-> _].
  cbn [compare unused missing tfvars_extra].
  repeat split; intros Hin;
    apply (proj2 (proj2 (sorted_is_listing _))) in Hin;
    by apply elem_of_difference in Hin as [_ Hn].
Qed.

Lemma ignored_names_not_reported_witness :
  ∃ a ig d out,
    analyse Sample.w_drift = (Ok (a, ig, d), out) ∧
    u "legacy" ∈ declared a ∧ (u "legacy" ∉ used a) ∧
    (u "legacy" ∉ unused d) ∧ (u "legacy" ∉ missing d) ∧
    (u "legacy" ∉ tfvars_extra d).
Proof.
  eexists _, _, _, _. split; [vm_compute; reflexivity|].
  split; [by vm_compute|]. split; [by vm_compute|].
  eapply (ignored_names_not_reported Sample.w_drift).
  - vm_compute. reflexivity.
  - by vm_compute.
Defined.

(** ** More on the path filter *)

Lemma replace1_idem (old new : char) (s : str) :
  old ≠ new → replace1 old new (replace1 old new s) = replace1 old new s.
Proof.
  intros Hne. unfold replace1. rewrite map_map. apply map_ext. intros c.
  destruct (N.eqb_spec c old) as [->|]; [|by destruct (N.eqb_spec c old)].
  by destruct (N.eqb_spec new old).
Qed.

(** The decision does not depend on the separator style: a path and its
    form with forward slashes are treated alike. *)
Theorem should_skip_separator_style (path : str) :
  fst (should_skip (replace1 92 47 path)) = fst (should_skip path).
Proof.
  rewrite !should_skip_cases, replace1_idem by done.
  destruct (negb _); [done|]. by destruct (existsb _ _).
Qed.

Lemma pattern_separators (seg : str) :
  seg ∈ IGNORE_DIR_PATTERNS → count_occ N.eq_dec seg 47 = 2%nat.
Proof.
  intros H. apply list_elem_of_In in H. simpl in H.
  destruct H as [<-|[<-|[<-|[<-|[]]]]]; reflexivity.
Qed.

(** Every directory pattern spans two separators, so a path with at most
    one separator passes the directory rule: a recognised file directly
    inside a top-level directory is scanned whatever that directory is
    called. *)
Theorem shallow_path_not_skipped (path : str) :
  (count_occ N.eq_dec (replace1 92%N 47%N path) 47%N ≤ 1)%nat →
  (∃ e, e ∈ IGNORE_FILE_EXTS ∧ e `suffix_of` replace1 92 47 path) →
  should_skip path = (Ok false, []).
Proof.
  intros Hcount Hext. rewrite should_skip_cases.
  rewrite (proj2 (endswith_any_spec _ _) Hext). cbn [negb].
  destruct (existsb _ _) eqn:E; [|done].
  apply existsb_exists in E as (seg & Hseg & Hsub).
  apply list_elem_of_In in Hseg. apply contains_spec in Hsub as (a & b & Hp).
  rewrite Hp, !count_occ_app, (pattern_separators seg Hseg) in Hcount. lia.
Qed.

Lemma shallow_path_not_skipped_witness :
  should_skip (u "vendor\main.tf") = (Ok false, []).
Proof.
  apply shallow_path_not_skipped.
  - vm_compute. lia.
  - exists (u ".tf"). split; [left|]. by exists (u "vendor/main").
Defined.

(** ** The ignore list *)

Lemma lstrip_suffix (s : str) : lstrip s `suffix_of` s.
Proof.
  induction s as [|c t IH]; cbn [lstrip]; [done|].
  destruct (isspace c); [by apply suffix_cons_r | done].
Qed.

Lemma lstrip_head (s : str) (c : char) :
  head (lstrip s) = Some c → isspace c = false.
Proof.
  induction s as [|x t IH]; cbn [lstrip]; [done|].
  destruct (isspace x) eqn:E; [done|]. cbn [head]. by intros [= <-].
Qed.

Lemma strip_last (s : str) (c : char) :
  last (strip s) = Some c → isspace c = false.
Proof. unfold strip. rewrite last_reverse. apply lstrip_head. Qed.

Lemma strip_head (s : str) (c : char) :
  head (strip s) = Some c → isspace c = false.
Proof.
  unfold strip. rewrite head_reverse.
  destruct (lstrip_suffix (reverse (lstrip s))) as [k Hk].
  intros Hl. apply (lstrip_head s).
  rewrite <- last_reverse, Hk, last_app. by rewrite Hl.
Qed.

Lemma startswith_hash (x : str) :
  startswith x (u "#") = false ↔ head x ≠ Some 35.
Proof.
  destruct x as [|c t]; [done|].
  change (startswith (c :: t) (u "#")) with (N.eqb 35 c && true).
  rewrite andb_true_r. cbn [head].
  destruct (N.eqb_spec 35 c) as [<-|Hc]; split; try done.
  intros _ [= ->]. done.
Qed.

(** What the loop over the lines has collected. *)
Lemma ignore_loop (lines : list str) (acc : gset str) :
  ∃ names,
    for_each (fun (names : gset str) line =>
                let line := strip line in
                if bool_decide (line = []) || startswith line (u "#")
                then ret names
                else ret (names ∪ {[line]})) acc lines = (Ok names, []) ∧
    ∀ x, x ∈ names ↔
         x ∈ acc ∨ ∃ line, line ∈ lines ∧ ignore_entry line x.
Proof.
  set (f := fun (names : gset str) (line : str) => _).
  revert acc. induction lines as [|l lines IH]; intros acc.
  - exists acc. split; [done|]. intros x. split; [by left|].
    intros [?|(line & Hin & _)]; [done|]. by apply elem_of_nil in Hin.
  - cbn [for_each].
    assert (Hf : f acc l =
                 ret (if bool_decide (strip l = [])
                         || startswith (strip l) (u "#")
                      then acc else acc ∪ {[strip l]})).
    { unfold f. by destruct (_ || _). }
    rewrite Hf, bind_ret_l. clear Hf.
    destruct (bool_decide (strip l = []) || startswith (strip l) (u "#"))
      eqn:E.
    + destruct (IH acc) as (names & -> & Hn). exists names. split; [done|].
      intros x. rewrite Hn. split.
      * intros [?|(line & Hin & He)]; [by left|].
        right. exists line. split; [by right | done].
      * intros [?|(line & Hin & He)]; [by left|].
        apply elem_of_cons in Hin as [->|Hin];
          [|right; by exists line].
        destruct He as (-> & Hne & Hh).
        apply orb_true_iff in E as [E|E]; [|congruence].
        by apply bool_decide_eq_true in E.
    + destruct (IH (acc ∪ {[strip l]})) as (names & -> & Hn).
      exists names. split; [done|].
      apply orb_false_iff in E as [E1 E2].
      apply bool_decide_eq_false in E1.
      intros x. rewrite Hn, elem_of_union, elem_of_singleton. split.
      * intros [[?| ->]|(line & Hin & He)].
        -- by left.
        -- right. exists l. split; [left | done].
        -- right. exists line. split; [by right | done].
      * intros [?|(line & Hin & He)]; [by left; left|].
        apply elem_of_cons in Hin as [->|Hin].
        -- left. right. by destruct He.
        -- right. by exists line.
Qed.

(** An ignore file that can be read gives the stripped lines that are
    neither empty nor comments, and nothing else; so no ignored name is
    empty, starts with [#], or begins or ends with white space. *)
Theorem ignore_list_entries (w : world) (txt : str) :
  ignorelist_file w = Some (Ok txt) →
  ∃ names,
    load_ignorelist w
      = (Ok names, [LogLoadingIgnore; LogIgnoredVars (sorted names)]) ∧
    (∀ x, x ∈ names ↔ ∃ line, line ∈ splitlines txt ∧ ignore_entry line x) ∧
    (∀ x, x ∈ names →
          x ≠ [] ∧ head x ≠ Some 35 ∧
          (∀ c, head x = Some c → isspace c = false) ∧
          (∀ c, last x = Some c → isspace c = false)).
Proof.
  intros Hf. unfold load_ignorelist. rewrite Hf.
  destruct (ignore_loop (splitlines txt) ∅) as (names & Hloop & Hn).
  exists names.
  assert (Hmem : ∀ x, x ∈ names ↔
                      ∃ line, line ∈ splitlines txt ∧ ignore_entry line x).
  { intros x. rewrite Hn. split; [|by right].
    intros [H|H]; [by apply elem_of_empty in H | done]. }
  split; [|split; [done|]].
  - cbv beta zeta delta [ret log lift] in Hloop |- *.
    repeat (rewrite bind_ok; cbv beta iota delta [fst snd]).
    rewrite Hloop.
    by repeat (rewrite bind_ok; cbv beta iota delta [fst snd]).
  - intros x (line & _ & -> & Hne & Hh)%Hmem.
    split; [done|]. split; [by apply startswith_hash|].
    split; [apply strip_head | apply strip_last].
Qed.

Lemma ignore_list_entries_witness :
  ∃ names out,
    load_ignorelist Sample.w_drift = (Ok names, out) ∧
    (∀ x, x ∈ names → x ≠ [] ∧ head x ≠ Some 35) ∧
    u "legacy" ∈ names.
Proof.
  destruct (ignore_list_entries Sample.w_drift
              (u "# kept for the old module" ++ [10] ++
               u "  legacy " ++ [13; 10]))
    as (names & Hl & Hm & Hi); [reflexivity|].
  exists names, [LogLoadingIgnore; LogIgnoredVars (sorted names)].
  split; [exact Hl|]. split.
  - intros x Hx. destruct (Hi x Hx) as (? & ? & _). by split.
  - apply Hm. exists (u "  legacy "). split.
    + vm_compute. right. left.
    + split; [by vm_compute|]. split; [by vm_compute | by vm_compute].
Defined.

(** Without an ignore file nothing is ignored and nothing fails. *)
Lemma load_ignorelist_absent (w : world) :
  ignorelist_file w = None → load_ignorelist w = (Ok ∅, [LogNoIgnoreFile]).
Proof. intros Hf. unfold load_ignorelist. by rewrite Hf. Qed.

(** An ignore file that exists and cannot be read is not recovered from:
    the run is given up after the scan, with status 1 and no report,
    whatever the scan found. *)
Theorem unreadable_ignore_file_aborts (w : world) (e : exn) (a : sets)
    (out : list event) :
  hcl2_installed w = true →
  ignorelist_file w = Some (Raise e) →
  collect w = (Ok a, out) →
  script w
    = (1%Z, LogStart (cwd w) :: out ++ [LogLoadingIgnore; Traceback e]).
Proof.
  intros Hh Hf Hc. unfold script, main, analyse, load_ignorelist.
  rewrite Hh, Hf, Hc. msimpl. by rewrite <- app_assoc.
Qed.

Lemma unreadable_ignore_file_aborts_witness :
  fst (script (World true (read_text Sample.w_clean)
                 (hcl2_loads Sample.w_clean) (json_loads Sample.w_clean)
                 (glob_tf Sample.w_clean) (glob_tfvars Sample.w_clean)
                 (glob_tfvars_json Sample.w_clean) (cwd Sample.w_clean)
                 (Some (Raise OSError)))) = 1%Z.
Proof.
  erewrite unreadable_ignore_file_aborts; [reflexivity..|].
  vm_compute. reflexivity.
Defined.

(** ** The listing order *)

Lemma sets_eq (a b : sets) :
  declared a = declared b → used a = used b →
  tfvars_keys a = tfvars_keys b → a = b.
Proof. destruct a, b. cbn. by intros -> -> ->. Qed.

Lemma sets_union_swap (a x y : sets) :
  sets_union (sets_union a x) y = sets_union (sets_union a y) x.
Proof.
  apply sets_eq; cbn [sets_union declared used tfvars_keys];
    rewrite <- !(assoc_L (∪)); f_equal; apply (comm_L (∪)).
Qed.

Lemma sets_union_empty (a : sets) : sets_union a (Sets ∅ ∅ ∅) = a.
Proof.
  apply sets_eq; cbn [sets_union declared used tfvars_keys];
    apply union_empty_r_L.
Qed.

Lemma sets_union_le (a x : sets) : sets_le a (sets_union a x).
Proof.
  repeat split; cbn [sets_union declared used tfvars_keys];
    apply union_subseteq_l.
Qed.

Lemma sets_union_absorb (a b x : sets) :
  sets_le (sets_union a x) b → sets_union b x = b.
Proof.
  intros (Hd & Hu & Hk). cbn [sets_union declared used tfvars_keys] in *.
  apply sets_eq; cbn [sets_union declared used tfvars_keys];
    rewrite (comm_L (∪)); apply subseteq_union_1_L;
    (etrans; [apply union_subseteq_r|done]).
Qed.

Section Joining.
Context (body : sets -> str -> M sets).
Hypothesis body_joins :
  ∀ p, (∃ x, ∀ a, ∃ o, body a p = (Ok (sets_union a x), o)) ∨
       (∀ a, ∃ e o, body a p = (Raise e, o)).

Lemma body_ok_join (a a' : sets) (p : str) (o : list event) :
  body a p = (Ok a', o) →
  ∃ x, a' = sets_union a x ∧ ∀ b, ∃ o', body b p = (Ok (sets_union b x), o').
Proof.
  intros H. destruct (body_joins p) as [[x Hx]|Hr].
  - exists x. split; [|done]. destruct (Hx a) as [o' H']. congruence.
  - destruct (Hr a) as (e & o' & H'). congruence.
Qed.

Lemma body_ok_le (a : sets) (p : str) (a' : sets) (o : list event) :
  body a p = (Ok a', o) → sets_le a a'.
Proof.
  intros (x & -> & _)%body_ok_join. apply sets_union_le.
Qed.

(** A loop over a rearranged listing ends with the same sets. *)
Lemma for_each_rearranged (l l' : list str) :
  l ≡ₚ l' →
  ∀ a a' o, for_each body a l = (Ok a', o) →
            ∃ o', for_each body a l' = (Ok a', o').
Proof.
  induction 1 as [|p l l' _ IH|p q l|l1 l2 l3 _ IH1 _ IH2]; intros a a' o H.
  - by exists o.
  - cbn [for_each] in *.
    apply bind_ok_inv in H as (a1 & o1 & o2 & H1 & H2 & _).
    destruct (IH _ _ _ H2) as [o' H']. rewrite H1, bind_ok, H'. eauto.
  - cbn [for_each] in *.
    apply bind_ok_inv in H as (a1 & o1 & o' & H1 & H & _).
    apply bind_ok_inv in H as (a2 & o2 & o3 & H2 & H3 & _).
    apply body_ok_join in H1 as (x & -> & Hx).
    apply body_ok_join in H2 as (y & -> & Hy).
    destruct (Hy a) as [oy Hya]. destruct (Hx (sets_union a y)) as [ox Hxa].
    rewrite Hya, bind_ok. cbn [fst snd]. rewrite Hxa, bind_ok. cbn [fst snd].
    rewrite (sets_union_swap a y x), H3. eauto.
  - destruct (IH1 _ _ _ H) as [o1 H1]. by apply (IH2 _ _ o1).
Qed.

(** Paths already seen add nothing when they are visited again. *)
Lemma for_each_again (l l2 : list str) (a a' : sets) (o : list event) :
  for_each body a l = (Ok a', o) → l2 ⊆ l →
  ∃ o', for_each body a' l2 = (Ok a', o').
Proof.
  intros H Hsub.
  assert (Hone : ∀ p, p ∈ l → ∃ o', body a' p = (Ok a', o')).
  { clear l2 Hsub. revert a o H.
    induction l as [|q l IH]; intros a o H p Hp;
      [by apply elem_of_nil in Hp|].
    cbn [for_each] in H.
    apply bind_ok_inv in H as (a1 & o1 & o2 & H1 & H2 & _).
    apply elem_of_cons in Hp as [->|Hp]; [|by eapply IH].
    apply body_ok_join in H1 as (x & -> & Hx).
    destruct (Hx a') as [o' H']. exists o'. rewrite H'. do 2 f_equal.
    apply (sets_union_absorb a).
    by apply (for_each_grows sets_le body body_ok_le l _ _ o2). }
  induction l2 as [|p l2 IH]; [by exists []|].
  destruct (Hone p) as [o1 H1]; [apply Hsub; left|].
  destruct IH as [o2 H2]; [intros q Hq; apply Hsub; by right|].
  cbn [for_each]. rewrite H1, bind_ok, H2. eauto.
Qed.
End Joining.

Lemma tf_body_joins (w : world) (p : str) :
  (∃ x, ∀ a, ∃ o, tf_body w a p = (Ok (sets_union a x), o)) ∨
  (∀ a, ∃ e o, tf_body w a p = (Raise e, o)).
Proof.
  pose proof (should_skip_cases p) as Hs.
  destruct (negb _); [|destruct (existsb _ _)].
  - left. exists (Sets ∅ ∅ ∅). intros a. unfold tf_body.
    rewrite Hs, sets_union_empty. msimpl. eauto.
  - left. exists (Sets ∅ ∅ ∅). intros a. unfold tf_body.
    rewrite Hs, sets_union_empty. msimpl. eauto.
  - destruct (parse_declared_vars_from_tf w p) as [[d|e] o1] eqn:Ed.
    + destruct (parse_used_vars_from_tf w p) as [[us|e] o2] eqn:Eu.
      * left. exists (Sets d us ∅). intros a. unfold tf_body.
        rewrite Hs. msimpl. rewrite Ed. msimpl. rewrite Eu. msimpl.
        eexists. f_equal. f_equal.
        apply sets_eq; cbn [sets_union declared used tfvars_keys];
          by rewrite ?union_empty_r_L.
      * right. intros a. unfold tf_body.
        rewrite Hs. msimpl. rewrite Ed. msimpl. rewrite Eu. msimpl. eauto.
    + right. intros a. unfold tf_body.
      rewrite Hs. msimpl. rewrite Ed. msimpl. eauto.
Qed.

Lemma tfvars_body_joins (w : world) (p : str) :
  (∃ x, ∀ a, ∃ o, tfvars_body w a p = (Ok (sets_union a x), o)) ∨
  (∀ a, ∃ e o, tfvars_body w a p = (Raise e, o)).
Proof.
  pose proof (should_skip_cases p) as Hs.
  destruct (negb _); [|destruct (existsb _ _)].
  - left. exists (Sets ∅ ∅ ∅). intros a. unfold tfvars_body.
    rewrite Hs, sets_union_empty. msimpl. eauto.
  - left. exists (Sets ∅ ∅ ∅). intros a. unfold tfvars_body.
    rewrite Hs, sets_union_empty. msimpl. eauto.
  - destruct (parse_tfvars w p) as [[ks|e] o1] eqn:Ek.
    + left. exists (Sets ∅ ∅ ks). intros a. unfold tfvars_body.
      rewrite Hs. msimpl. rewrite Ek. msimpl.
      eexists. f_equal. f_equal.
      apply sets_eq; cbn [sets_union declared used tfvars_keys];
        by rewrite ?union_empty_r_L.
    + right. intros a. unfold tfvars_body.
      rewrite Hs. msimpl. rewrite Ek. msimpl. eauto.
Qed.

(** The order in which the three listings name the files does not
    matter: a run that reaches the comparison reaches it with the same
    sets, the same categories and the same status however each listing
    is rearranged. *)
Theorem listing_order_irrelevant (w : world) (l1 l2 l3 : list str)
    (a : sets) (ig : gset str) (d : drift) (out : list event) :
  glob_tf w ≡ₚ l1 → glob_tfvars w ≡ₚ l2 → glob_tfvars_json w ≡ₚ l3 →
  analyse w = (Ok (a, ig, d), out) →
  ∃ out',
    analyse (with_listing w l1 l2 l3) = (Ok (a, ig, d), out') ∧
    fst (main (with_listing w l1 l2 l3)) = fst (main w).
Proof.
  intros P1 P2 P3 Ha.
  pose proof Ha as Hinv. apply analyse_ok_inv in Hinv as (-> & o1 & o2 & Hc & Hl & _).
  apply collect_stages in Hc as (a1 & a2 & p1 & p2 & p3 & H1 & H2 & H3 & _).
  destruct (for_each_rearranged _ (tf_body_joins w) _ _ P1 _ _ _ H1)
    as [q1 Q1].
  destruct (for_each_rearranged _ (tfvars_body_joins w) _ _ P2 _ _ _ H2)
    as [q2 Q2].
  destruct (for_each_rearranged _ (tfvars_body_joins w) _ _ P3 _ _ _ H3)
    as [q3 Q3].
  assert (Hc' : collect (with_listing w l1 l2 l3)
                = (Ok a, q1 ++ q2 ++ q3)).
  { unfold collect.
    change (tf_body (with_listing w l1 l2 l3)) with (tf_body w).
    change (tfvars_body (with_listing w l1 l2 l3)) with (tfvars_body w).
    cbn [glob_tf glob_tfvars glob_tfvars_json with_listing].
    rewrite Q1, bind_ok. cbn [fst snd]. rewrite Q2, bind_ok. cbn [fst snd].
    by rewrite Q3. }
  assert (Ha' : analyse (with_listing w l1 l2 l3)
                = (Ok (a, ig, compare a ig),
                   LogStart (cwd w) :: (q1 ++ q2 ++ q3) ++ o2
                     ++ [LogComparing])).
  { by apply (analyse_ok (with_listing w l1 l2 l3)). }
  eexists. split; [exact Ha'|].
  by rewrite (main_after_analyse _ _ _ _ _ Ha'),
             (main_after_analyse _ _ _ _ _ Ha).
Qed.

Lemma listing_order_irrelevant_witness :
  ∃ out',
    analyse (with_listing Sample.w_drift
               [u "main.tf"; u "variables.tf"; u "modules/vendor/x.tf"]
               [u "terraform.tfvars.json"] [u "terraform.tfvars.json"])
    = (Ok (Sets {[u "region"; u "env"; u "legacy"]}
                {[u "region"; u "project_id"]}
                {[u "extra_flag"; u "region"]},
           {[u "legacy"]},
           Drift [u "env"] [u "project_id"] [u "extra_flag"]), out').
Proof.
  destruct (listing_order_irrelevant Sample.w_drift
              [u "main.tf"; u "variables.tf"; u "modules/vendor/x.tf"]
              [u "terraform.tfvars.json"] [u "terraform.tfvars.json"]
              (Sets {[u "region"; u "env"; u "legacy"]}
                    {[u "region"; u "project_id"]}
                    {[u "extra_flag"; u "region"]})
              {[u "legacy"]}
              (Drift [u "env"] [u "project_id"] [u "extra_flag"])
              [LogStart (u "/repo");
               LogSkipIgnoredDir (u "modules/vendor/x.tf");
               LogLoadingIgnore; LogIgnoredVars [u "legacy"]; LogComparing])
    as (out' & H & _).
  - apply perm_swap.
  - reflexivity.
  - reflexivity.
  - vm_compute. reflexivity.
  - by exists out'.
Defined.

(** Every path of the third listing being in the second, as holds for
    the patterns [**/*.tfvars.json] and [**/*.tfvars*], the third loop
    changes nothing: the sets are those the second loop ended with. *)
Theorem json_pass_adds_nothing (w : world) (a : sets) (out : list event) :
  glob_tfvars_json w ⊆ glob_tfvars w →
  collect w = (Ok a, out) →
  ∃ a1 o1 o2,
    for_each (tf_body w) (Sets ∅ ∅ ∅) (glob_tf w) = (Ok a1, o1) ∧
    for_each (tfvars_body w) a1 (glob_tfvars w) = (Ok a, o2).
Proof.
  intros Hsub Hc.
  apply collect_stages in Hc as (a1 & a2 & p1 & p2 & p3 & H1 & H2 & H3 & _).
  destruct (for_each_again _ (tfvars_body_joins w) _ _ _ _ _ H2 Hsub)
    as [o' H'].
  exists a1, p1, p2. split; [done|]. congruence.
Qed.

Lemma json_pass_adds_nothing_witness :
  ∃ a1 o1 o2,
    for_each (tf_body Sample.w_drift) (Sets ∅ ∅ ∅) (glob_tf Sample.w_drift)
      = (Ok a1, o1) ∧
    for_each (tfvars_body Sample.w_drift) a1 (glob_tfvars Sample.w_drift)
      = (Ok (Sets {[u "region"; u "env"; u "legacy"]}
                  {[u "region"; u "project_id"]}
                  {[u "extra_flag"; u "region"]}), o2).
Proof.
  apply (json_pass_adds_nothing Sample.w_drift _
           [LogSkipIgnoredDir (u "modules/vendor/x.tf")]).
  - intros p Hp. exact Hp.
  - vm_compute. reflexivity.
Defined.

(** ** References and declarations, further *)

Lemma startswith_sep (b : str) (c : char) (w s : str) :
  c ∉ w → startswith (s ++ c :: b) w = startswith s w.
Proof.
  revert s. induction w as [|x w IH]; intros s Hc; [done|].
  apply not_elem_of_cons in Hc as [Hx Hw].
  destruct s as [|y s]; cbn [app startswith].
  - destruct (N.eqb_spec x c); [congruence | done].
  - by rewrite IH.
Qed.

Lemma run_sep (p : char -> bool) (b : str) (c : char) (s : str) :
  p c = false → run p (s ++ c :: b) = run p s.
Proof.
  intros Hc. induction s as [|y s IH]; cbn [app run]; [by rewrite Hc|].
  by rewrite IH.
Qed.

Lemma sep_not_in_var (c : char) : is_ident c = false → c ≠ 46 → c ∉ u "var.".
Proof.
  intros Hi Hd Hin. apply list_elem_of_In in Hin. simpl in Hin.
  destruct Hin as [<-|[<-|[<-|[<-|[]]]]]; done.
Qed.

Lemma ref_at_sep (pv : option char) (s b : str) (c : char) :
  is_ident c = false → c ≠ 46 → ref_at pv (s ++ c :: b) = ref_at pv s.
Proof.
  intros Hi Hd. unfold ref_at.
  destruct (match pv with Some x => is_ident x | None => false end); [done|].
  rewrite startswith_sep by (by apply sep_not_in_var).
  destruct (startswith s (u "var.")) eqn:Hs; [|done].
  apply startswith_spec in Hs as [t ->]. rewrite <- app_assoc.
  change (drop 4 (u "var." ++ ?k)) with k. by rewrite run_sep.
Qed.

Lemma ref_at_nil (pv : option char) : ref_at pv [] = None.
Proof. unfold ref_at. by destruct (match pv with Some _ => _ | None => _ end). Qed.

Lemma scan_first (m : option char -> str -> option (str * nat))
    (pv pv' : option char) (s : str) :
  (∀ s, m pv s = m pv' s) → scan m pv O s = scan m pv' O s.
Proof. intros H. destruct s; cbn [scan]; by rewrite H. Qed.

Lemma scan_ref_sep (b : str) (c : char) (a : str) (pv : option char)
    (k : nat) :
  is_ident c = false → c ≠ 46 → (k ≤ length a)%nat →
  scan ref_at pv k (a ++ c :: b) = scan ref_at pv k a ++ scan ref_at None O b.
Proof.
  intros Hi Hd. revert pv k. induction a as [|x t IH]; intros pv k Hk.
  - destruct k; [|cbn [length] in Hk; lia].
    cbn [app scan]. pose proof (ref_at_sep pv [] b c Hi Hd) as E.
    cbn [app] in E. rewrite E, ref_at_nil. cbn [app].
    apply scan_first. intros s. unfold ref_at. by rewrite Hi.
  - destruct k as [|k].
    + cbn [scan app].
      change (x :: t ++ c :: b) with ((x :: t) ++ c :: b).
      rewrite ref_at_sep by done.
      destruct (ref_at pv (x :: t)) as [[w n]|] eqn:E.
      * apply ref_at_spec, ref_match_span in E. cbn [length] in E.
        rewrite IH by lia. done.
      * by rewrite IH by (cbn [length]; lia).
    + cbn [scan app]. rewrite IH by (cbn [length] in Hk; lia). done.
Qed.

(** A text cut at a character that is neither an identifier character
    nor a dot (a line break, a blank, ...) references what its two parts
    reference: no match spans the cut and none is lost at it. *)
Theorem references_of_parts (w : world) (p pa pb : str) (a b : str)
    (c : char) :
  is_ident c = false → c ≠ 46 →
  read_text w p = Ok (a ++ c :: b) →
  read_text w pa = Ok a → read_text w pb = Ok b →
  findall VAR_REF_RE (a ++ c :: b)
    = findall VAR_REF_RE a ++ findall VAR_REF_RE b ∧
  ∃ sa sb,
    parse_used_vars_from_tf w pa = (Ok sa, []) ∧
    parse_used_vars_from_tf w pb = (Ok sb, []) ∧
    parse_used_vars_from_tf w p = (Ok (sa ∪ sb), []).
Proof.
  intros Hi Hd Hp Ha Hb.
  assert (Hf : findall VAR_REF_RE (a ++ c :: b)
               = findall VAR_REF_RE a ++ findall VAR_REF_RE b).
  { rewrite !findall_var_ref. apply scan_ref_sep; [done | done | lia]. }
  split; [done|].
  exists (list_to_set (findall VAR_REF_RE a)),
         (list_to_set (findall VAR_REF_RE b)).
  unfold parse_used_vars_from_tf. rewrite Hp, Ha, Hb. msimpl.
  by rewrite Hf, list_to_set_app_L.
Qed.

Lemma references_of_parts_witness :
  parse_used_vars_from_tf Parts.w_parts (u "whole.tf")
  = (Ok ({[u "alpha"]} ∪ {[u "beta"; u "alpha"]}), []).
Proof.
  assert (Hd : (10 : N) ≠ 46) by done.
  destruct (references_of_parts Parts.w_parts (u "whole.tf") (u "head.tf")
              (u "tail.tf") Parts.head_tf Parts.tail_tf 10
              eq_refl Hd eq_refl eq_refl eq_refl)
    as (_ & sa & sb & Ha & Hb & Hp).
  assert (Ea : parse_used_vars_from_tf Parts.w_parts (u "head.tf")
               = (Ok {[u "alpha"]}, [])) by (vm_compute; reflexivity).
  assert (Eb : parse_used_vars_from_tf Parts.w_parts (u "tail.tf")
               = (Ok {[u "beta"; u "alpha"]}, [])) by (vm_compute; reflexivity).
  assert (sa = {[u "alpha"]}) as -> by congruence.
  assert (sb = {[u "beta"; u "alpha"]}) as -> by congruence.
  exact Hp.
Defined.


Lemma declared_in_blocks (blocks : list pyval) (d : gset str) :
  Forall block_shaped blocks →
  for_each declared_in_block d blocks
    = (Ok (d ∪ ⋃ (declared_of_block <$> blocks)), []).
Proof.
  intros H. revert d. induction H as [|blk blocks Hb _ IH]; intros d.
  - cbn [for_each fmap list_fmap]. by rewrite union_list_nil, union_empty_r_L.
  - cbn [for_each]. destruct Hb as (kvs & -> & [Hn | [entries He]]).
    + rewrite (declared_in_block_other d kvs Hn), bind_ok, IH.
      cbn [fst snd app fmap list_fmap declared_of_block].
      rewrite Hn, union_list_cons. by rewrite union_empty_l_L.
    + rewrite (declared_in_block_list d kvs entries He), bind_ok, IH.
      cbn [fst snd app fmap list_fmap declared_of_block].
      rewrite He, union_list_cons. by rewrite (assoc_L (∪)).
Qed.

(** On a document of the shape the structured parser builds, one
    mapping or a list of them with every [variable] entry a list, the
    declaration extractor returns the keys of the mappings in those
    lists, without raising and without the fallback. *)
Theorem structured_declarations (w : world) (path txt : str) (data : pyval) :
  read_text w path = Ok txt →
  hcl2_loads w txt = Ok data →
  Forall block_shaped (blocks_of data) →
  parse_declared_vars_from_tf w path
    = (Ok (⋃ (declared_of_block <$> blocks_of data)), []).
Proof.
  intros Hr Hp Hb. rewrite (parse_declared_structured w path txt data Hr Hp).
  assert (Hd : declared_in_document ∅ data
               = for_each declared_in_block ∅ (blocks_of data)).
  { by destruct data. }
  rewrite Hd, declared_in_blocks by done. by rewrite union_empty_l_L.
Qed.

Lemma structured_declarations_witness :
  parse_declared_vars_from_tf Sample.w_drift (u "variables.tf")
  = (Ok {[u "region"; u "env"; u "legacy"]}, []).
Proof.
  rewrite (structured_declarations Sample.w_drift (u "variables.tf")
             Sample.variables_tf Sample.variables_doc);
    [vm_compute; reflexivity | reflexivity | reflexivity |].
  repeat constructor. eexists. split; [reflexivity|]. right.
  eexists. vm_compute. reflexivity.
Defined.

(** ** The outcome of a run, further *)

Lemma all_empty_iff (a : sets) (ig : gset str) :
  unused (compare a ig) = [] ∧ missing (compare a ig) = [] ∧
  tfvars_extra (compare a ig) = [] ↔
  declared a ∖ ig = used a ∖ ig ∧ tfvars_keys a ⊆ declared a ∪ ig.
Proof.
  cbn [compare unused missing tfvars_extra]. rewrite !sorted_nil_iff.
  split.
  - intros (H1 & H2 & H3). split.
    + apply set_eq. intros s. rewrite !elem_of_difference.
      pose proof (proj1 (set_eq _ _) H1 s) as E1.
      pose proof (proj1 (set_eq _ _) H2 s) as E2.
      rewrite !elem_of_difference, elem_of_empty in E1, E2.
      destruct (decide (s ∈ declared a)), (decide (s ∈ used a)); tauto.
    + intros s Hs. apply elem_of_union.
      pose proof (proj1 (set_eq _ _) H3 s) as E3.
      rewrite !elem_of_difference, elem_of_empty in E3.
      destruct (decide (s ∈ declared a)), (decide (s ∈ ig)); tauto.
  - intros [H1 H2]. pose proof (proj1 (set_eq _ _) H1) as E1.
    repeat split; apply set_eq; intros s; specialize (E1 s);
      specialize (H2 s); rewrite elem_of_union in H2;
      rewrite !elem_of_difference in E1;
      rewrite !elem_of_difference, elem_of_empty; tauto.
Qed.

Lemma report_raises_never (d : drift) : ∃ code out, report d = (Ok code, out).
Proof. destruct (report_status d) as [out H]. eauto. Qed.

Lemma main_raises_iff (w : world) :
  (∃ e out, main w = (Raise e, out)) ↔ (∃ e out, analyse w = (Raise e, out)).
Proof.
  unfold main. destruct (analyse w) as [[[[a ig] d]|e] o]; msimpl.
  - destruct (report_raises_never d) as (code & out & ->). cbn [fst snd].
    split; intros (e & out' & H); done.
  - split; intros _; eauto.
Qed.

(** Status 1 has two causes: drift was found, or an exception left the
    scan or the loading of the ignore list. *)
Theorem exit_status_one (w : world) :
  fst (script w) = 1%Z ↔
  hcl2_installed w = true ∧
  ((∃ e out, analyse w = (Raise e, out)) ∨
   ∃ a ig d out,
     analyse w = (Ok (a, ig, d), out) ∧
     ¬ (unused d = [] ∧ missing d = [] ∧ tfvars_extra d = [])).
Proof.
  unfold script. destruct (hcl2_installed w); [|split; [done|by intros []]].
  rewrite <- main_raises_iff.
  destruct (main w) as [[code|e] out] eqn:Hm; cbn [fst].
  - split.
    + intros ->. split; [done|]. right. unfold main in Hm.
      apply bind_ok_inv in Hm as ([[a ig] d] & o1 & o2 & Ha & Hr & _).
      exists a, ig, d, o1. split; [done|].
      revert Hr. msimpl. destruct (report_status d) as [o ->]. cbn [fst snd].
      destruct (unused d), (missing d), (tfvars_extra d); try done;
        by intros _ (? & ? & ?).
    + intros [_ [(e & out' & H)|(a & ig & d & o & Ha & Hne)]]; [done|].
      rewrite (main_after_analyse _ _ _ _ _ Ha) in Hm.
      destruct (report_status d) as [o' Hr]. rewrite Hr in Hm.
      injection Hm as <- _.
      destruct (unused d), (missing d), (tfvars_extra d); try done.
      by destruct Hne.
  - split; [|done]. intros _. split; [done|]. left. eauto.
Qed.

(** A run that reaches the comparison is clean exactly when, the
    ignored names apart, the declared names are the used ones and every
    override key is declared. *)
Theorem clean_iff_sets_agree (w : world) (a : sets) (ig : gset str)
    (d : drift) (out : list event) :
  analyse w = (Ok (a, ig, d), out) →
  (fst (main w) = Ok 0%Z ↔
   declared a ∖ ig = used a ∖ ig ∧ tfvars_keys a ⊆ declared a ∪ ig).
Proof.
  intros Ha. rewrite (main_after_analyse _ _ _ _ _ Ha). cbn [fst].
  apply analyse_ok_inv in Ha as [-> _]. rewrite <- all_empty_iff.
  destruct (report_status (compare a ig)) as [o ->]. cbn [fst].
  destruct (unused _), (missing _), (tfvars_extra _); split; try done;
    by intros (? & ? & ?).
Qed.

Lemma clean_iff_sets_agree_witness :
  ∃ a ig,
    fst (main Sample.w_clean) = Ok 0%Z ∧
    declared a ∖ ig = used a ∖ ig ∧ tfvars_keys a ⊆ declared a ∪ ig ∧
    declared a = {[u "a"; u "b"]}.
Proof.
  exists (Sets {[u "a"; u "b"]} {[u "a"; u "b"]} {[u "a"]}), ∅.
  destruct (clean_iff_sets_agree Sample.w_clean
              (Sets {[u "a"; u "b"]} {[u "a"; u "b"]} {[u "a"]}) ∅
              (Drift [] [] [])
              [LogStart (u "/repo"); LogNoIgnoreFile; LogComparing])
    as [H1 H2]; [vm_compute; reflexivity|].
  assert (Hm : fst (main Sample.w_clean) = Ok 0%Z) by (vm_compute; reflexivity).
  destruct (H1 Hm) as [E1 E2]. by repeat split.
Defined.

(** No name is reported twice in conflicting ways: an unused name is
    declared and appears in neither other category, and a name reported
    as missing or as an unexpected override is not declared. *)
Theorem categories_exclusive (w : world) (a : sets) (ig : gset str)
    (d : drift) (out : list event) (s : str) :
  analyse w = (Ok (a, ig, d), out) →
  (s ∈ unused d →
   s ∈ declared a ∧ (s ∉ missing d) ∧ (s ∉ tfvars_extra d)) ∧
  (s ∈ missing d → s ∈ used a ∧ (s ∉ declared a)) ∧
  (s ∈ tfvars_extra d → s ∈ tfvars_keys a ∧ (s ∉ declared a)).
Proof.
  intros Ha. apply analyse_ok_inv in Ha as [-> _].
  cbn [compare unused missing tfvars_extra].
  pose proof (proj2 (proj2 (sorted_is_listing
                ((declared a ∖ used a) ∖ ig))) s) as Eu.
  pose proof (proj2 (proj2 (sorted_is_listing
                ((used a ∖ declared a) ∖ ig))) s) as Em.
  pose proof (proj2 (proj2 (sorted_is_listing
                ((tfvars_keys a ∖ declared a) ∖ ig))) s) as Ex.
  rewrite !elem_of_difference in Eu, Em, Ex. tauto.
Qed.

Lemma categories_exclusive_witness :
  ∃ a d,
    u "env" ∈ unused d ∧ u "env" ∈ declared a ∧
    (u "env" ∉ missing d) ∧ (u "env" ∉ tfvars_extra d).
Proof.
  exists (Sets {[u "region"; u "env"; u "legacy"]}
               {[u "region"; u "project_id"]}
               {[u "extra_flag"; u "region"]}),
         (Drift [u "env"] [u "project_id"] [u "extra_flag"]).
  destruct (categories_exclusive Sample.w_drift
              (Sets {[u "region"; u "env"; u "legacy"]}
                    {[u "region"; u "project_id"]}
                    {[u "extra_flag"; u "region"]})
              {[u "legacy"]}
              (Drift [u "env"] [u "project_id"] [u "extra_flag"])
              [LogStart (u "/repo");
               LogSkipIgnoredDir (u "modules/vendor/x.tf");
               LogLoadingIgnore; LogIgnoredVars [u "legacy"]; LogComparing]
              (u "env")) as (H & _); [vm_compute; reflexivity|].
  assert (Hin : u "env" ∈ [u "env"]) by left.
  split; [exact Hin | exact (H Hin)].
Defined.

Lemma sorted_mono (X Y : gset str) : X ⊆ Y → sorted X ⊆ sorted Y.
Proof.
  intros H s Hs.
  apply (proj2 (proj2 (sorted_is_listing Y))).
  apply (proj2 (proj2 (sorted_is_listing X))) in Hs. by apply H.
Qed.

(** Ignoring more names can only take names out of the report, and a
    clean comparison stays clean. *)
Theorem larger_ignore_list_reports_less (a : sets) (ig ig' : gset str) :
  ig ⊆ ig' →
  unused (compare a ig') ⊆ unused (compare a ig) ∧
  missing (compare a ig') ⊆ missing (compare a ig) ∧
  tfvars_extra (compare a ig') ⊆ tfvars_extra (compare a ig) ∧
  (compare a ig = Drift [] [] [] → compare a ig' = Drift [] [] []).
Proof.
  intros Hsub.
  assert (Hd : ∀ X : gset str, X ∖ ig' ⊆ X ∖ ig).
  { intros X s. rewrite !elem_of_difference. intros [? Hn].
    split; [done|]. intros Hi. apply Hn. by apply Hsub. }
  assert (H1 := sorted_mono _ _ (Hd (declared a ∖ used a))).
  assert (H2 := sorted_mono _ _ (Hd (used a ∖ declared a))).
  assert (H3 := sorted_mono _ _ (Hd (tfvars_keys a ∖ declared a))).
  cbn [compare unused missing tfvars_extra].
  split; [done|]. split; [done|]. split; [done|].
  unfold compare. intros [= E1 E2 E3]. rewrite E1 in H1. rewrite E2 in H2.
  rewrite E3 in H3.
  assert (Hnil : ∀ l : list str, l ⊆ [] → l = []).
  { intros [|x l] Hl; [done|].
    assert (Hx : x ∈ ([] : list str)) by (apply Hl; left).
    by apply elem_of_nil in Hx. }
  by rewrite (Hnil _ H1), (Hnil _ H2), (Hnil _ H3).
Qed.

Lemma larger_ignore_list_reports_less_witness :
  unused (compare (Sets {[u "a"; u "b"]} {[u "a"]} ∅) {[u "b"]})
    ⊆ unused (compare (Sets {[u "a"; u "b"]} {[u "a"]} ∅) ∅).
Proof.
  apply (larger_ignore_list_reports_less
           (Sets {[u "a"; u "b"]} {[u "a"]} ∅) ∅ {[u "b"]}).
  apply empty_subseteq.
Defined.

Lemma load_ignorelist_readable (w : world) (txt : str) :
  ignorelist_file w = Some (Ok txt) →
  ∃ names out, load_ignorelist w = (Ok names, out).
Proof.
  intros Hf. unfold load_ignorelist. rewrite Hf.
  destruct (ignore_loop (splitlines txt) ∅) as (names & Hloop & _).
  exists names. eexists.
  cbv beta zeta delta [ret log lift] in Hloop |- *.
  repeat (rewrite bind_ok; cbv beta iota delta [fst snd]).
  rewrite Hloop.
  by repeat (rewrite bind_ok; cbv beta iota delta [fst snd]).
Qed.

Lemma compare_empty (ig : gset str) :
  compare (Sets ∅ ∅ ∅) ig = Drift [] [] [].
Proof.
  unfold compare. cbn [declared used tfvars_keys].
  assert (E : ((∅ : gset str) ∖ ∅) ∖ ig = ∅).
  { apply set_eq. intros s. rewrite !elem_of_difference, elem_of_empty.
    tauto. }
  by rewrite E, (proj2 (sorted_nil_iff ∅) eq_refl).
Qed.

(** With nothing listed the run is clean, whatever the ignore file
    holds, as long as it is absent or can be read. *)
Theorem empty_tree_is_clean (w : world) :
  hcl2_installed w = true →
  glob_tf w = [] → glob_tfvars w = [] → glob_tfvars_json w = [] →
  (∀ e, ignorelist_file w ≠ Some (Raise e)) →
  fst (script w) = 0%Z.
Proof.
  intros Hh H1 H2 H3 Hi.
  assert (Hc : collect w = (Ok (Sets ∅ ∅ ∅), [])).
  { unfold collect. by rewrite H1, H2, H3. }
  assert (Hl : ∃ ig o, load_ignorelist w = (Ok ig, o)).
  { destruct (ignorelist_file w) as [[txt|e]|] eqn:Hf.
    - by apply (load_ignorelist_readable w txt).
    - by destruct (Hi e).
    - exists ∅, [LogNoIgnoreFile]. by apply load_ignorelist_absent. }
  destruct Hl as (ig & o & Hl).
  pose proof (analyse_ok w _ ig [] o Hc Hl) as Ha.
  unfold script. rewrite Hh, (main_after_analyse _ _ _ _ _ Ha).
  rewrite compare_empty. reflexivity.
Qed.

Lemma empty_tree_is_clean_witness :
  fst (script (World true (fun _ => Raise OSError) (fun _ => Raise ParseError)
                 (fun _ => Raise ParseError) [] [] [] (u "/repo")
                 (Some (Ok (u "region"))))) = 0%Z.
Proof.
  apply empty_tree_is_clean; try reflexivity. by intros e.
Defined.
